(** * V4L2 capture pipeline: buffer lifecycle and hand-off queue

  A shallow embedding of [thread_safe_queue.h] and [CameraCapture.cpp],
  with the properties of the capture design checked against it.

  - [ThreadSafeQueue]: the blocking queue.  The mutex makes every member
    function atomic except while it sleeps on a condition variable; the
    changes made by the other threads during such a sleep are an explicit
    argument (a list of wake-ups).
  - [CameraCapture]: the capture session.  The answers of the V4L2 driver
    to the system calls are an explicit argument of every operation; the
    process side (object fields, mapped regions, the sequence of requests
    and of reported errors) is explicit state. *)

From stdpp Require Import base numbers list strings.

Local Open Scope Z_scope.

(* ===================================================================== *)
(** ** thread_safe_queue.h *)
(* ===================================================================== *)

Module ThreadSafeQueue.

Section Queue.
Context {T : Type}.

(** The data members guarded by [mutex_]. *)
Record Queue := mkQueue {
  queue_      : list T;   (* std::queue<T>: front of the queue first *)
  max_size_   : nat;      (* const size_t, 0 = unbounded *)
  terminated_ : bool
}.

Definition set_queue (l : list T) (q : Queue) : Queue :=
  {| queue_ := l; max_size_ := max_size_ q; terminated_ := terminated_ q |}.

(** explicit ThreadSafeQueue(size_t max_size = 0) *)
Definition ThreadSafeQueue (max_size : nat) : Queue :=
  {| queue_ := []; max_size_ := max_size; terminated_ := false |}.

(** One return of [condition_variable::wait]/[wait_until] inside a waiting
    thread: what the other threads left in the queue while the mutex was
    released, and whether the return is due to the deadline. *)
Record Wake := mkWake {
  wake_queue      : list T;
  wake_terminated : bool;
  wake_timeout    : bool
}.

Definition observe (w : Wake) (q : Queue) : Queue :=
  {| queue_ := wake_queue w; max_size_ := max_size_ q;
     terminated_ := wake_terminated w |}.

(** Result of a predicate wait: the thread is still asleep when the
    recorded wake-ups end, or it left the wait after [waits] sleeps. *)
Inductive Waited :=
| StillWaiting
| Woken (satisfied : bool) (q : Queue) (waits : nat).

(** cv.wait(lock, pred):  while (!pred()) wait(lock); *)
Fixpoint wait (pred : Queue → bool) (q : Queue) (env : list Wake)
         (waits : nat) : Waited :=
  if pred q then Woken true q waits
  else match env with
       | [] => StillWaiting
       | w :: env' => wait pred (observe w q) env' (S waits)
       end.

(** cv.wait_for(lock, d, pred):
      while (!pred()) if (wait_until(lock, t) == timeout) return pred();
      return true; *)
Fixpoint wait_for (pred : Queue → bool) (q : Queue) (env : list Wake)
         (waits : nat) : Waited :=
  if pred q then Woken true q waits
  else match env with
       | [] => StillWaiting
       | w :: env' =>
           let q' := observe w q in
           if wake_timeout w then Woken (pred q') q' (S waits)
           else wait_for pred q' env' (S waits)
       end.

(** [this] { return queue_.size() < max_size_ || terminated_; } *)
Definition not_full_pred (q : Queue) : bool :=
  (length (queue_ q) <? max_size_ q)%nat || terminated_ q.

(** [this] { return !queue_.empty() || terminated_; } *)
Definition not_empty_pred (q : Queue) : bool :=
  negb (bool_decide (queue_ q = [])) || terminated_ q.

(** Result of a member function that can block.  [out] is the value of
    the by-reference argument on return. *)
Inductive Outcome :=
| Blocked
| Returned (ret : bool) (out : T) (q : Queue) (waits : nat).

(** bool push(const T& item, int timeout_ms = -1)
    (the overload taking T&& has the same body up to std::move).  The
    notify_one() calls change no data member; their effect is a wake-up in
    the argument of some other thread's wait. *)
Definition push (item : T) (timeout_ms : Z) (q : Queue) (env : list Wake)
  : Outcome :=
  let waited :=
    if (0 <? max_size_ q)%nat then
      if 0 <=? timeout_ms then wait_for not_full_pred q env 0
      else wait not_full_pred q env 0
    else Woken true q 0 in
  match waited with
  | StillWaiting => Blocked
  | Woken false q' n => Returned false item q' n          (* timeout *)
  | Woken true q' n =>
      if terminated_ q' then Returned false item q' n
      else Returned true item (set_queue (queue_ q' ++ [item]) q') n
  end.

(** bool pop(T& item, int timeout_ms = -1) *)
Definition pop (item : T) (timeout_ms : Z) (q : Queue) (env : list Wake)
  : Outcome :=
  let waited :=
    if 0 <=? timeout_ms then wait_for not_empty_pred q env 0
    else wait not_empty_pred q env 0 in
  match waited with
  | StillWaiting => Blocked
  | Woken false q' n => Returned false item q' n          (* timeout *)
  | Woken true q' n =>
      match queue_ q' with
      | [] => if terminated_ q' then Returned false item q' n
              else Returned true item q' n   (* unreachable: see [pop_wait_nonempty] *)
      | x :: rest => Returned true x (set_queue rest q') n
      end
  end.

(** size_t size() const / bool empty() const / bool is_terminated() const *)
Definition size (q : Queue) : nat := length (queue_ q).
Definition empty (q : Queue) : bool := bool_decide (queue_ q = []).
Definition is_terminated (q : Queue) : bool := terminated_ q.

(** void terminate() *)
Definition terminate (q : Queue) : Queue :=
  {| queue_ := queue_ q; max_size_ := max_size_ q; terminated_ := true |}.

(** A consumer calling [pop] repeatedly, one (timeout, wake-ups) pair per
    call, each call receiving the item variable left by the previous one.
    [None] when a call never returns. *)
Fixpoint pop_many (calls : list (Z * list Wake)) (item : T) (q : Queue)
  : option (list (bool * T) * Queue) :=
  match calls with
  | [] => Some ([], q)
  | (t, env) :: calls' =>
      match pop item t q env with
      | Blocked => None
      | Returned r item' q' _ =>
          match pop_many calls' item' q' with
          | None => None
          | Some (rs, q'') => Some ((r, item') :: rs, q'')
          end
      end
  end.

(** A producer calling [push] repeatedly, one (item, timeout, wake-ups)
    triple per call.  [None] when a call never returns. *)
Fixpoint push_many (calls : list (T * Z * list Wake)) (q : Queue)
  : option (list bool * Queue) :=
  match calls with
  | [] => Some ([], q)
  | (item, t, env) :: calls' =>
      match push item t q env with
      | Blocked => None
      | Returned r _ q' _ =>
          match push_many calls' q' with
          | None => None
          | Some (rs, q'') => Some (r :: rs, q'')
          end
      end
  end.

End Queue.

Arguments Queue : clear implicits.
Arguments Wake : clear implicits.
Arguments Outcome : clear implicits.
Arguments Waited : clear implicits.

End ThreadSafeQueue.

(* ===================================================================== *)
(** ** CameraCapture.h / CameraCapture.cpp *)
(* ===================================================================== *)

Module CameraCapture.

(** Constants of <linux/videodev2.h>, <errno.h> and <sys/mman.h>. *)
Definition V4L2_CAP_VIDEO_CAPTURE : Z := 0x00000001.
Definition V4L2_CAP_STREAMING     : Z := 0x04000000.
Definition EINTR  : Z := 4.
Definition EAGAIN : Z := 11.
Definition MAP_FAILED : Z := -1.
Definition nullptr    : Z := 0.

(** Values of the fixed-width types: __u32 fields and the conversion of a
    __u32 to int. *)
Definition u32 (z : Z) : Z := z mod 2 ^ 32.
Definition i32 (z : Z) : Z := (z + 2 ^ 31) mod 2 ^ 32 - 2 ^ 31.

(** struct Buffer { void* start; size_t length; int dma_fd; } *)
Record Buffer := mkBuffer {
  buf_start  : Z;
  buf_length : Z;
  buf_dma_fd : Z
}.

(** A value-initialised element, as appended by vector::resize. *)
Definition Buffer_zero : Buffer := mkBuffer nullptr 0 0.
#[export] Instance Buffer_inhabited : Inhabited Buffer := populate Buffer_zero.

Definition set_buf_start (a : Z) (b : Buffer) : Buffer :=
  mkBuffer a (buf_length b) (buf_dma_fd b).
Definition set_buf_length (n : Z) (b : Buffer) : Buffer :=
  mkBuffer (buf_start b) n (buf_dma_fd b).
Definition set_buf_dma_fd (fd : Z) (b : Buffer) : Buffer :=
  mkBuffer (buf_start b) (buf_length b) fd.

(** struct CameraFrame.  [return_buffer] is the closure
    [this, index = buf.index]() { this->return_buffer_to_queue(index); }
    represented by its captured index; [None] is an empty std::function. *)
Record CameraFrame := mkFrame {
  camera_id     : Z;
  buf_index     : Z;
  fd            : Z;
  data          : Z;
  frame_length  : Z;
  bytes_used    : Z;
  width         : Z;
  height        : Z;
  stride        : Z;
  pixel_format  : Z;
  timestamp     : Z * Z;
  sequence      : Z;
  return_buffer : option Z
}.

(** The local [CameraFrame frame;] of the capture loop before it is filled. *)
Definition blank_frame : CameraFrame :=
  mkFrame 0 0 0 nullptr 0 0 0 0 0 0 (0, 0) 0 None.

(** What the process asks of its environment, in program order: system
    calls with the arguments the code passes, and lines sent to
    report_error. *)
Inductive Request :=
| SysOpen (path : string)
| VIDIOC_QUERYCAP
| VIDIOC_S_FMT (w h pixelformat : Z)
| VIDIOC_S_PARM (numerator denominator : Z)
| VIDIOC_REQBUFS (count : Z)
| VIDIOC_QUERYBUF (index : Z)
| SysMmap (len offset : Z)
| VIDIOC_EXPBUF (index : Z)
| VIDIOC_QBUF (index : Z)
| VIDIOC_DQBUF
| VIDIOC_STREAMON
| VIDIOC_STREAMOFF
| SysSelect
| SysMunmap (addr len : Z)
| SysClose (fd : Z)
| SysSleep (ms : Z)
| Report (msg : string).

#[export] Instance Request_eq_dec : EqDecision Request.
Proof. solve_decision. Defined.

(** The object's data members together with the part of the process
    they act on: the regions currently mapped and the requests made. *)
Record Session := mkSession {
  device_path_  : string;
  width_        : Z;
  height_       : Z;
  stride_       : Z;
  fps_          : Z;
  pixel_format_ : Z;
  camera_id_    : Z;
  fd_           : Z;
  running_      : bool;
  initialized_  : bool;
  buffers_      : list Buffer;
  mapped        : list (Z * Z);     (* (address, length) *)
  trace         : list Request
}.

Definition set_stride (v : Z) (s : Session) : Session :=
  mkSession (device_path_ s) (width_ s) (height_ s) v (fps_ s)
    (pixel_format_ s) (camera_id_ s) (fd_ s) (running_ s) (initialized_ s)
    (buffers_ s) (mapped s) (trace s).
Definition set_camera_id (v : Z) (s : Session) : Session :=
  mkSession (device_path_ s) (width_ s) (height_ s) (stride_ s) (fps_ s)
    (pixel_format_ s) v (fd_ s) (running_ s) (initialized_ s)
    (buffers_ s) (mapped s) (trace s).
Definition set_fd (v : Z) (s : Session) : Session :=
  mkSession (device_path_ s) (width_ s) (height_ s) (stride_ s) (fps_ s)
    (pixel_format_ s) (camera_id_ s) v (running_ s) (initialized_ s)
    (buffers_ s) (mapped s) (trace s).
Definition set_running (v : bool) (s : Session) : Session :=
  mkSession (device_path_ s) (width_ s) (height_ s) (stride_ s) (fps_ s)
    (pixel_format_ s) (camera_id_ s) (fd_ s) v (initialized_ s)
    (buffers_ s) (mapped s) (trace s).
Definition set_initialized (v : bool) (s : Session) : Session :=
  mkSession (device_path_ s) (width_ s) (height_ s) (stride_ s) (fps_ s)
    (pixel_format_ s) (camera_id_ s) (fd_ s) (running_ s) v
    (buffers_ s) (mapped s) (trace s).
Definition set_buffers (v : list Buffer) (s : Session) : Session :=
  mkSession (device_path_ s) (width_ s) (height_ s) (stride_ s) (fps_ s)
    (pixel_format_ s) (camera_id_ s) (fd_ s) (running_ s) (initialized_ s)
    v (mapped s) (trace s).
Definition set_mapped (v : list (Z * Z)) (s : Session) : Session :=
  mkSession (device_path_ s) (width_ s) (height_ s) (stride_ s) (fps_ s)
    (pixel_format_ s) (camera_id_ s) (fd_ s) (running_ s) (initialized_ s)
    (buffers_ s) v (trace s).
Definition set_trace (v : list Request) (s : Session) : Session :=
  mkSession (device_path_ s) (width_ s) (height_ s) (stride_ s) (fps_ s)
    (pixel_format_ s) (camera_id_ s) (fd_ s) (running_ s) (initialized_ s)
    (buffers_ s) (mapped s) v.

Definition emit (r : Request) (s : Session) : Session :=
  set_trace (trace s ++ [r]) s.

(** void report_error(const std::string& message) *)
Definition report_error (message : string) (s : Session) : Session :=
  emit (Report message) s.

(** The driver's side of one run of initialize(): for each request, the
    value the call evaluates to (for an ioctl, the value of the
    IOCTL_RETRY expression, i.e. after its retries on EINTR/EAGAIN).
    [None]/[false] stand for -1; mmap answers an address or MAP_FAILED. *)
Record Driver := mkDriver {
  open_    : Z;                                  (* fd or -1 *)
  querycap : option Z;                           (* cap.capabilities *)
  s_fmt    : Z → Z → Z → option (Z * Z * Z * Z); (* width, height, pixelformat, bytesperline written back *)
  s_parm   : Z → Z → bool;
  reqbufs  : Z → option Z;                       (* req.count written back *)
  querybuf : Z → option (Z * Z);                 (* buf.length, buf.m.offset *)
  mmap     : Z → Z → Z;
  expbuf   : Z → option Z;                       (* expbuf.fd *)
  qbuf     : Z → bool
}.

(** CameraCapture::CameraCapture(device_path, width, height, fps, pixel_format)
    with the default member initialisers of the header; [stride_] has
    none and is taken as 0. *)
Definition CameraCapture (device_path : string)
           (width height fps pixel_format : Z) : Session :=
  {| device_path_ := device_path; width_ := width; height_ := height;
     stride_ := 0; fps_ := fps; pixel_format_ := pixel_format;
     camera_id_ := 0; fd_ := -1; running_ := false; initialized_ := false;
     buffers_ := []; mapped := []; trace := [] |}.

(** mmap(nullptr, len, PROT_READ | PROT_WRITE, MAP_SHARED, fd_, offset) *)
Definition sys_mmap (drv : Driver) (len offset : Z) (s : Session)
  : Z * Session :=
  let s := emit (SysMmap len offset) s in
  let addr := mmap drv len offset in
  if addr =? MAP_FAILED then (addr, s)
  else (addr, set_mapped (mapped s ++ [(addr, len)]) s).

(** munmap(addr, len) *)
Definition sys_munmap (addr len : Z) (s : Session) : Session :=
  let s := emit (SysMunmap addr len) s in
  set_mapped (filter (λ r, r ≠ (addr, len)) (mapped s)) s.

(** int export_dma_buf(int index) *)
Definition export_dma_buf (drv : Driver) (index : Z) (s : Session)
  : Z * Session :=
  let s := emit (VIDIOC_EXPBUF (u32 index)) s in
  match expbuf drv (u32 index) with
  | None => (-1, s)
  | Some fd => (fd, s)
  end.

(** request_buffers(), first loop:
    for (size_t i = 0; i < buffers_.size(); ++i) { QUERYBUF; mmap; export } *)
Fixpoint map_loop (drv : Driver) (indices : list nat) (s : Session)
  : bool * Session :=
  match indices with
  | [] => (true, s)
  | i :: rest =>
      let s := emit (VIDIOC_QUERYBUF (u32 (Z.of_nat i))) s in
      match querybuf drv (u32 (Z.of_nat i)) with
      | None => (false, report_error "VIDIOC_QUERYBUF failed" s)
      | Some (len, offset) =>
          let s := set_buffers (alter (set_buf_length len) i (buffers_ s)) s in
          let '(addr, s) := sys_mmap drv len offset s in
          let s := set_buffers (alter (set_buf_start addr) i (buffers_ s)) s in
          if addr =? MAP_FAILED then (false, report_error "mmap failed" s)
          else
            let '(dfd, s) := export_dma_buf drv (i32 (Z.of_nat i)) s in
            let s := set_buffers (alter (set_buf_dma_fd dfd) i (buffers_ s)) s in
            let s := if dfd =? -1
                     then report_error "Failed to export DMA-BUF" s else s in
            map_loop drv rest s
      end
  end.

(** request_buffers(), second loop:
    for (size_t i = 0; i < buffers_.size(); ++i) { QBUF } *)
Fixpoint queue_loop (drv : Driver) (indices : list nat) (s : Session)
  : bool * Session :=
  match indices with
  | [] => (true, s)
  | i :: rest =>
      let s := emit (VIDIOC_QBUF (u32 (Z.of_nat i))) s in
      if qbuf drv (u32 (Z.of_nat i)) then queue_loop drv rest s
      else (false, report_error "VIDIOC_QBUF failed" s)
  end.

(** bool request_buffers() *)
Definition request_buffers (drv : Driver) (s : Session) : bool * Session :=
  let s := emit (VIDIOC_REQBUFS 4) s in
  match reqbufs drv 4 with
  | None => (false, report_error "VIDIOC_REQBUFS failed" s)
  | Some count =>
      if count <? 2 then (false, report_error "Insufficient buffer memory" s)
      else
        let s := set_buffers
                   (resize (Z.to_nat count) Buffer_zero (buffers_ s)) s in
        let '(ok, s) := map_loop drv (seq 0 (length (buffers_ s))) s in
        if ok then queue_loop drv (seq 0 (length (buffers_ s))) s
        else (false, s)
  end.

(** bool init_device() *)
Definition init_device (drv : Driver) (s : Session) : bool * Session :=
  let '(ok, s) := request_buffers drv s in
  if ok then (true, s) else (false, s).

(** void uninit_device() *)
Definition uninit_buffer (s : Session) (b : Buffer) : Session :=
  let s := if buf_start b =? nullptr then s
           else sys_munmap (buf_start b) (buf_length b) s in
  if buf_dma_fd b =? -1 then s else emit (SysClose (buf_dma_fd b)) s.

Definition uninit_device (s : Session) : Session :=
  set_buffers [] (foldl uninit_buffer s (buffers_ s)).

(** bool initialize() *)
Definition initialize (drv : Driver) (s : Session) : bool * Session :=
  if initialized_ s then (true, s)
  else
    let s := emit (SysOpen (device_path_ s)) s in
    let s := set_fd (open_ drv) s in
    if fd_ s =? -1 then
      (false, report_error ("Failed to open device: " +:+ device_path_ s) s)
    else
      let s := emit VIDIOC_QUERYCAP s in
      match querycap drv with
      | None => (false, report_error "VIDIOC_QUERYCAP failed" s)
      | Some capabilities =>
          if Z.land capabilities V4L2_CAP_VIDEO_CAPTURE =? 0 then
            (false, report_error "Device does not support video capture" s)
          else if Z.land capabilities V4L2_CAP_STREAMING =? 0 then
            (false, report_error "Device does not support streaming I/O" s)
          else
            let s := emit (VIDIOC_S_FMT (width_ s) (height_ s)
                                        (pixel_format_ s)) s in
            match s_fmt drv (width_ s) (height_ s) (pixel_format_ s) with
            | None => (false, report_error "Failed to set video format" s)
            | Some (w, h, pf, bytesperline) =>
                if negb (w =? width_ s) || negb (h =? height_ s)
                   || negb (pf =? pixel_format_ s) then
                  (false,
                   report_error "Device does not support requested format" s)
                else
                  let s := set_stride bytesperline s in
                  let s := emit (VIDIOC_S_PARM 1 (fps_ s)) s in
                  if s_parm drv 1 (fps_ s) then
                    let '(ok, s) := request_buffers drv s in
                    if ok then (true, set_initialized true s)
                    else (false, s)
                  else (false, report_error "Failed to set frame rate" s)
            end
      end.

(** bool start_streaming() / bool stop_streaming(); the argument is the
    driver's answer to the ioctl. *)
Definition start_streaming (streamon : bool) (s : Session) : bool * Session :=
  let s := emit VIDIOC_STREAMON s in
  if streamon then (true, s)
  else (false, report_error "VIDIOC_STREAMON failed" s).

Definition stop_streaming (streamoff : bool) (s : Session) : bool * Session :=
  let s := emit VIDIOC_STREAMOFF s in
  if streamoff then (true, s)
  else (false, report_error "VIDIOC_STREAMOFF failed" s).

(** Answers of select() (r == -1 with errno, r == 0, r > 0) and of the
    VIDIOC_DQBUF request (-1 with errno, or the v4l2_buffer filled in). *)
Inductive SelectResult :=
| SelectError (errno : Z)
| SelectTimeout
| SelectReady.

Record v4l2_buffer := mk_v4l2_buffer {
  index         : Z;
  bytesused     : Z;
  buf_timestamp : Z * Z;
  buf_sequence  : Z
}.

Inductive DqbufResult :=
| DqbufError (errno : Z)
| DqbufDone (buf : v4l2_buffer).

(** bool get_frame(CameraFrame& frame) *)
Definition get_frame (sel : SelectResult) (dq : DqbufResult)
           (frame : CameraFrame) (s : Session)
  : bool * CameraFrame * Session :=
  let s := emit SysSelect s in
  match sel with
  | SelectError errno =>
      if errno =? EINTR then (false, frame, s)
      else (false, frame, report_error "select failed" s)
  | SelectTimeout => (false, frame, report_error "Capture timeout" s)
  | SelectReady =>
      let s := emit VIDIOC_DQBUF s in
      match dq with
      | DqbufError errno =>
          if errno =? EAGAIN then (false, frame, s)
          else (false, frame, report_error "VIDIOC_DQBUF failed" s)
      | DqbufDone buf =>
          let idx := u32 (index buf) in
          if Z.of_nat (length (buffers_ s)) <=? idx then
            (false, frame, report_error "Invalid buffer index" s)
          else
            let b := buffers_ s !!! Z.to_nat idx in
            (true,
             {| camera_id := camera_id_ s;
                buf_index := i32 idx;
                fd := buf_dma_fd b;
                data := buf_start b;
                frame_length := buf_length b;
                bytes_used := bytesused buf;
                width := width_ s;
                height := height_ s;
                stride := stride_ s;
                pixel_format := pixel_format_ s;
                timestamp := buf_timestamp buf;
                sequence := buf_sequence buf;
                return_buffer := Some idx |},
             s)
      end
  end.

(** bool return_buffer_to_queue(int index); [accepted] is the driver's
    answer to the VIDIOC_QBUF request, used only if the request is made. *)
Definition return_buffer_to_queue (index : Z) (accepted : bool) (s : Session)
  : bool * Session :=
  if (index <? 0) || (Z.of_nat (length (buffers_ s)) <=? index) then (false, s)
  else
    let s := emit (VIDIOC_QBUF (u32 index)) s in
    if accepted then (true, s)
    else (false, report_error "VIDIOC_QBUF failed" s).

(** Calling [frame.return_buffer] as the consumers do:
    if (frame.return_buffer) frame.return_buffer(); *)
Definition call_return_buffer (frame : CameraFrame) (accepted : bool)
           (s : Session) : Session :=
  match return_buffer frame with
  | None => s
  | Some captured => snd (return_buffer_to_queue (i32 captured) accepted s)
  end.

(** using FrameCallback = std::function<void(const CameraFrame&)>: what a
    call of the sink does to the session. *)
Definition FrameCallback : Type := CameraFrame → Session → Session.

(** One pass through the body of the loop in capture_thread(). *)
Definition capture_iteration (frame_callback_ : option FrameCallback)
           (sel : SelectResult) (dq : DqbufResult) (s : Session) : Session :=
  let '(ok, frame, s) := get_frame sel dq blank_frame s in
  if ok then
    match frame_callback_ with
    | Some callback => callback frame s
    | None => s
    end
  else emit (SysSleep 5) s.

(** void capture_thread():  while (running_) { ... }.  One pair of device
    answers per pass; the passes recorded end when stop() clears
    [running_] from the caller's thread. *)
Fixpoint capture_thread (frame_callback_ : option FrameCallback)
         (answers : list (SelectResult * DqbufResult)) (s : Session)
  : Session :=
  match answers with
  | [] => s
  | (sel, dq) :: rest =>
      if running_ s then
        capture_thread frame_callback_ rest
                       (capture_iteration frame_callback_ sel dq s)
      else s
  end.

(** void stop(), seen from the caller after the capture thread is joined. *)
Definition stop (streamoff : bool) (s : Session) : Session :=
  if running_ s then snd (stop_streaming streamoff (set_running false s))
  else s.

(** CameraCapture::~CameraCapture() *)
Definition destroy (streamoff : bool) (s : Session) : Session :=
  let s := stop streamoff s in
  let s := if initialized_ s then uninit_device s else s in
  if fd_ s =? -1 then s
  else set_fd (-1) (emit (SysClose (fd_ s)) s).

(** The requests of a given kind found in a trace. *)
Definition qbuf_requests (t : list Request) : list Z :=
  omap (λ r, match r with VIDIOC_QBUF i => Some i | _ => None end) t.

Definition reqbufs_requests (t : list Request) : list Z :=
  omap (λ r, match r with VIDIOC_REQBUFS n => Some n | _ => None end) t.

Definition munmap_requests (t : list Request) : list (Z * Z) :=
  omap (λ r, match r with SysMunmap a n => Some (a, n) | _ => None end) t.

Definition reports (t : list Request) : list string :=
  omap (λ r, match r with Report m => Some m | _ => None end) t.

(** The frames handed to the sink during a run of the capture loop. *)
Fixpoint delivered_frames (frame_callback_ : option FrameCallback)
         (answers : list (SelectResult * DqbufResult)) (s : Session)
  : list CameraFrame :=
  match answers with
  | [] => []
  | (sel, dq) :: rest =>
      if running_ s then
        let '(ok, frame, _) := get_frame sel dq blank_frame s in
        (if ok then [frame] else []) ++
        delivered_frames frame_callback_ rest
                         (capture_iteration frame_callback_ sel dq s)
      else []
  end.

(** *** Devices and sessions used in the examples *)

(** V4L2_PIX_FMT_YUYV = v4l2_fourcc('Y','U','Y','V'), the default argument
    of the constructor. *)
Definition V4L2_PIX_FMT_YUYV : Z := 0x56595559.

(** A camera that accepts every request as made: 4 buffers are granted,
    buffer i lies at offset i * 614400 and is mapped at 0x7f0000000000 +
    offset, and its DMA-BUF descriptor is 10 + i. *)
Definition good_driver : Driver :=
  {| open_ := 3;
     querycap := Some (Z.lor V4L2_CAP_VIDEO_CAPTURE V4L2_CAP_STREAMING);
     s_fmt := λ w h pf, Some (w, h, pf, 2 * w);
     s_parm := λ _ _, true;
     reqbufs := λ count, Some count;
     querybuf := λ i, Some (614400, i * 614400);
     mmap := λ len offset, 0x7f0000000000 + offset;
     expbuf := λ i, Some (10 + i);
     qbuf := λ _, true |}.

(** The same camera with a driver that rejects VIDIOC_S_PARM. *)
Definition fixed_rate_driver : Driver :=
  {| open_ := open_ good_driver; querycap := querycap good_driver;
     s_fmt := s_fmt good_driver;
     s_parm := λ _ _, false;
     reqbufs := reqbufs good_driver; querybuf := querybuf good_driver;
     mmap := mmap good_driver; expbuf := expbuf good_driver;
     qbuf := qbuf good_driver |}.

(** The same camera with a sensor that only delivers 320x240: VIDIOC_S_FMT
    succeeds and writes the size it chose back. *)
Definition small_sensor_driver : Driver :=
  {| open_ := open_ good_driver; querycap := querycap good_driver;
     s_fmt := λ _ _ pf, Some (320, 240, pf, 640);
     s_parm := s_parm good_driver;
     reqbufs := reqbufs good_driver; querybuf := querybuf good_driver;
     mmap := mmap good_driver; expbuf := expbuf good_driver;
     qbuf := qbuf good_driver |}.

(** The same camera in a process that cannot map the second buffer. *)
Definition second_mmap_fails_driver : Driver :=
  {| open_ := open_ good_driver; querycap := querycap good_driver;
     s_fmt := s_fmt good_driver; s_parm := s_parm good_driver;
     reqbufs := reqbufs good_driver; querybuf := querybuf good_driver;
     mmap := λ len offset,
       if offset =? 614400 then MAP_FAILED else mmap good_driver len offset;
     expbuf := expbuf good_driver;
     qbuf := qbuf good_driver |}.

(** CameraCapture cam("/dev/video0", 640, 480, 30); *)
Definition video0 : Session :=
  CameraCapture "/dev/video0" 640 480 30 V4L2_PIX_FMT_YUYV.

(** [video0] after a successful initialize(). *)
Definition video0_ready : Session := (initialize good_driver video0).2.

(** *** The rest of the public interface *)

(** void start(), up to the creation of the capture thread; [streamon] is
    the driver's answer to VIDIOC_STREAMON. *)
Definition start (drv : Driver) (streamon : bool) (s : Session) : Session :=
  let '(ok, s) := if initialized_ s then (true, s) else initialize drv s in
  if ok then
    if running_ s then s
    else
      let '(streaming, s) := start_streaming streamon s in
      if streaming then set_running true s
      else report_error "Failed to start streaming" s
  else s.

(** *** Vocabulary for the statements about allocation and teardown *)

(** What the driver's answers make of buffer [i]: the region QUERYBUF
    describes, mapped where mmap says, with the descriptor EXPBUF gives or
    -1. *)
Definition driver_buffer (drv : Driver) (i : nat) : Buffer :=
  match querybuf drv (u32 (Z.of_nat i)) with
  | Some (len, offset) =>
      mkBuffer (mmap drv len offset) len
               (default (-1) (expbuf drv (u32 (i32 (Z.of_nat i)))))
  | None => Buffer_zero
  end.

(** The driver describes buffer [i] and the process can map it. *)
Definition buffer_mappable (drv : Driver) (i : nat) : bool :=
  match querybuf drv (u32 (Z.of_nat i)) with
  | Some (len, offset) => negb (mmap drv len offset =? MAP_FAILED)
  | None => false
  end.

Definition region (b : Buffer) : Z * Z := (buf_start b, buf_length b).

(** The slots uninit_device() unmaps (start is not null) and those whose
    descriptor it closes (dma_fd is not -1). *)
Definition mapped_slots (bs : list Buffer) : list Buffer :=
  filter (λ b, buf_start b ≠ nullptr) bs.

Definition exported_slots (bs : list Buffer) : list Buffer :=
  filter (λ b, buf_dma_fd b ≠ -1) bs.

(** The sink of the test program in CameraCapture.cpp: it gives the
    buffer back as soon as it has seen the frame,
      if (frame.return_buffer) frame.return_buffer();
    [accepted] tells what the driver answers to the enqueue request. *)
Definition release_sink (accepted : CameraFrame → bool) : FrameCallback :=
  λ frame s, call_return_buffer frame (accepted frame) s.

(** The data members other than the pool: the session with its pool, its
    mappings and its trace blanked. *)
Definition config (s : Session) : Session :=
  set_trace [] (set_mapped [] (set_buffers [] s)).


(** The driver's answers let initialize() through for a session asking
    for the given width, height, pixel format and frame rate. *)
Definition initialize_accepts (drv : Driver) (w h pf fps : Z) : bool :=
  negb (open_ drv =? -1) &&
  match querycap drv with
  | Some capabilities =>
      negb (Z.land capabilities V4L2_CAP_VIDEO_CAPTURE =? 0) &&
      negb (Z.land capabilities V4L2_CAP_STREAMING =? 0)
  | None => false
  end &&
  match s_fmt drv w h pf with
  | Some (w', h', pf', _) => (w' =? w) && (h' =? h) && (pf' =? pf)
  | None => false
  end &&
  s_parm drv 1 fps &&
  match reqbufs drv 4 with
  | Some count =>
      negb (count <? 2) &&
      forallb (buffer_mappable drv) (seq 0 (Z.to_nat count)) &&
      forallb (λ i, qbuf drv (u32 (Z.of_nat i))) (seq 0 (Z.to_nat count))
  | None => false
  end.

(** The requests initialize() can make. *)
Definition setup_request (r : Request) : bool :=
  match r with
  | SysOpen _ | VIDIOC_QUERYCAP | VIDIOC_S_FMT _ _ _ | VIDIOC_S_PARM _ _
  | VIDIOC_REQBUFS _ | VIDIOC_QUERYBUF _ | SysMmap _ _ | VIDIOC_EXPBUF _
  | VIDIOC_QBUF _ | Report _ => true
  | _ => false
  end.

Definition close_requests (t : list Request) : list Z :=
  omap (λ r, match r with SysClose fd => Some fd | _ => None end) t.

Definition stream_requests (t : list Request) : list Request :=
  filter (λ r, r = VIDIOC_STREAMON ∨ r = VIDIOC_STREAMOFF) t.

Definition select_requests (t : list Request) : list Request :=
  filter (λ r, r = SysSelect) t.

Definition sleep_requests (t : list Request) : list Z :=
  omap (λ r, match r with SysSleep ms => Some ms | _ => None end) t.

End CameraCapture.

(* ===================================================================== *)
(** ** EncoderStreamer.cpp: the consumer side of the hand-off *)
(* ===================================================================== *)

Module EncoderStreamer.

(** OpenCV's codes for cv::Mat::type(). *)
Definition CV_8UC1 : Z := 0.
Definition CV_8UC3 : Z := 16.

(** Lines written to std::cerr by the encoding loop. *)
Inductive Cerr :=
| CouldNotAllocateFrame
| UnsupportedMatFormat (type : Z)
| NoConversionContext
| EncodingFailed (sequence : Z).

(** The data members the encoding loop works on.  The FFmpeg pointers are
    kept as "is not null"; av_frame_alloc() is taken to return a frame. *)
Record Encoder := mkEncoder {
  rgb_frame_   : bool;
  sws_frame_   : bool;
  sws_ctx_     : bool;
  pts_         : Z;
  input_queue_ : ThreadSafeQueue.Queue CameraCapture.CameraFrame;
  cerr         : list Cerr
}.

Definition set_rgb_frame (v : bool) (e : Encoder) : Encoder :=
  mkEncoder v (sws_frame_ e) (sws_ctx_ e) (pts_ e) (input_queue_ e) (cerr e).
Definition set_sws_frame (v : bool) (e : Encoder) : Encoder :=
  mkEncoder (rgb_frame_ e) v (sws_ctx_ e) (pts_ e) (input_queue_ e) (cerr e).
Definition set_sws_ctx (v : bool) (e : Encoder) : Encoder :=
  mkEncoder (rgb_frame_ e) (sws_frame_ e) v (pts_ e) (input_queue_ e) (cerr e).
Definition set_pts (v : Z) (e : Encoder) : Encoder :=
  mkEncoder (rgb_frame_ e) (sws_frame_ e) (sws_ctx_ e) v (input_queue_ e)
            (cerr e).
Definition set_input_queue
    (v : ThreadSafeQueue.Queue CameraCapture.CameraFrame) (e : Encoder)
  : Encoder :=
  mkEncoder (rgb_frame_ e) (sws_frame_ e) (sws_ctx_ e) (pts_ e) v (cerr e).
Definition complain (m : Cerr) (e : Encoder) : Encoder :=
  mkEncoder (rgb_frame_ e) (sws_frame_ e) (sws_ctx_ e) (pts_ e)
            (input_queue_ e) (cerr e ++ [m]).

(** The members as the constructor leaves them: null pointers, pts_ = 0
    and a default-constructed (unbounded) input queue. *)
Definition EncoderStreamer : Encoder :=
  mkEncoder false false false 0 (ThreadSafeQueue.ThreadSafeQueue 0) [].

(** What FFmpeg, OpenCV and the camera driver answer during one pass of
    the encoding loop. *)
Record Answers := mkAnswers {
  rgb_buffer  : bool;  (* av_frame_get_buffer(rgb_frame_, 32) >= 0 *)
  mat_type    : Z;     (* rgb_mat.type() after processor_->processFrame() *)
  sws_context : bool;  (* sws_getCachedContext(...) != nullptr *)
  sws_buffer  : bool;  (* av_frame_get_buffer(sws_frame_, 32) >= 0 *)
  encoded     : bool;  (* encode_and_send_frame(sws_frame_) *)
  requeued    : bool   (* the driver's answer behind frame.return_buffer() *)
}.

(** void push_frame(const CameraFrame& frame):  input_queue_.push(frame);
    the result of push is dropped.  [None] when push never returns. *)
Definition push_frame (frame : CameraCapture.CameraFrame)
           (env : list (ThreadSafeQueue.Wake CameraCapture.CameraFrame))
           (e : Encoder) : option Encoder :=
  match ThreadSafeQueue.push frame (-1) (input_queue_ e) env with
  | ThreadSafeQueue.Blocked => None
  | ThreadSafeQueue.Returned _ _ q' _ => Some (set_input_queue q' e)
  end.

(** if (frame.return_buffer) frame.return_buffer(); *)
Definition give_back (a : Answers) (frame : CameraCapture.CameraFrame)
           (cam : CameraCapture.Session) : CameraCapture.Session :=
  CameraCapture.call_return_buffer frame (requeued a) cam.

(** The body of encoding_loop() for a frame that was popped; the camera
    session is the one the frame's return_buffer closure refers to. *)
Definition encode_popped (a : Answers) (frame : CameraCapture.CameraFrame)
           (e : Encoder) (cam : CameraCapture.Session)
  : Encoder * CameraCapture.Session :=
  let rgb_failed := negb (rgb_frame_ e) && negb (rgb_buffer a) in
  let e := if rgb_frame_ e then e else set_rgb_frame true e in
  if rgb_failed then
    (complain CouldNotAllocateFrame e, give_back a frame cam)
  else if negb (mat_type a =? CV_8UC3) && negb (mat_type a =? CV_8UC1) then
    (complain (UnsupportedMatFormat (mat_type a)) e, give_back a frame cam)
  else
    let e := set_sws_ctx (sws_context a) e in
    if negb (sws_ctx_ e) then
      (complain NoConversionContext e, give_back a frame cam)
    else
      let sws_failed := negb (sws_frame_ e) && negb (sws_buffer a) in
      let e := if sws_frame_ e then e else set_sws_frame true e in
      if sws_failed then
        (complain CouldNotAllocateFrame e, give_back a frame cam)
      else
        let e := set_pts (pts_ e + 1) e in
        let e := if encoded a then e
                 else complain (EncodingFailed
                                  (CameraCapture.sequence frame)) e in
        (e, give_back a frame cam).

(** One pass of  while (running_) { CameraFrame frame;
                                    if (input_queue_.pop(frame, 50)) {...} }.
    [None] when pop never returns. *)
Definition encoding_pass (a : Answers)
           (env : list (ThreadSafeQueue.Wake CameraCapture.CameraFrame))
           (e : Encoder) (cam : CameraCapture.Session)
  : option (Encoder * CameraCapture.Session) :=
  match ThreadSafeQueue.pop CameraCapture.blank_frame 50 (input_queue_ e) env
  with
  | ThreadSafeQueue.Blocked => None
  | ThreadSafeQueue.Returned false _ q' _ => Some (set_input_queue q' e, cam)
  | ThreadSafeQueue.Returned true frame q' _ =>
      Some (encode_popped a frame (set_input_queue q' e) cam)
  end.

(** Consecutive passes of the encoding loop. *)
Fixpoint encoding_passes
         (passes : list (Answers *
                         list (ThreadSafeQueue.Wake CameraCapture.CameraFrame)))
         (e : Encoder) (cam : CameraCapture.Session)
  : option (Encoder * CameraCapture.Session) :=
  match passes with
  | [] => Some (e, cam)
  | (a, env) :: rest =>
      match encoding_pass a env e cam with
      | None => None
      | Some (e', cam') => encoding_passes rest e' cam'
      end
  end.

(** The sink example.cpp registers: stream.push_frame(frame), repeated for
    a list of frames. *)
Fixpoint push_frames (frames : list CameraCapture.CameraFrame) (e : Encoder)
  : option Encoder :=
  match frames with
  | [] => Some e
  | frame :: rest =>
      match push_frame frame [] e with
      | None => None
      | Some e' => push_frames rest e'
      end
  end.

(** The enqueue request behind a frame's return_buffer closure. *)
Definition released_index (frame : CameraCapture.CameraFrame) : Z :=
  match CameraCapture.return_buffer frame with
  | Some captured => CameraCapture.u32 (CameraCapture.i32 captured)
  | None => 0
  end.

End EncoderStreamer.

(* ===================================================================== *)
(** ** Properties of the queue *)
(* ===================================================================== *)

Section QueueProperties.
Import ThreadSafeQueue.
Context {T : Type}.
Implicit Types (q : Queue T) (env : list (Wake T)) (item : T).

Lemma wait_ready (pred : Queue T → bool) q env n :
  pred q = true → wait pred q env n = Woken true q n.
Proof. intros Hp. destruct env; simpl; by rewrite Hp. Qed.

Lemma wait_for_ready (pred : Queue T → bool) q env n :
  pred q = true → wait_for pred q env n = Woken true q n.
Proof. intros Hp. destruct env; simpl; by rewrite Hp. Qed.

(** A wait only ends satisfied in a state where its predicate holds. *)
Lemma wait_sound (pred : Queue T → bool) env : ∀ q n b q' m,
  wait pred q env n = Woken b q' m → b = true ∧ pred q' = true.
Proof.
  induction env as [|w env IH]; intros q n b q' m; simpl;
    destruct (pred q) eqn:Hp; try discriminate.
  - intros [= <- <- <-]. done.
  - intros [= <- <- <-]. done.
  - apply IH.
Qed.

Lemma wait_for_sound (pred : Queue T → bool) env : ∀ q n b q' m,
  wait_for pred q env n = Woken b q' m → b = pred q'.
Proof.
  induction env as [|w env IH]; intros q n b q' m; simpl;
    destruct (pred q) eqn:Hp; try discriminate.
  - intros [= <- <- <-]. done.
  - intros [= <- <- <-]. done.
  - destruct (wake_timeout w).
    + intros [= <- <- <-]. done.
    + apply IH.
Qed.

Lemma not_full_terminated q : terminated_ q = true → not_full_pred q = true.
Proof. unfold not_full_pred. intros ->. apply orb_true_r. Qed.

Lemma not_empty_terminated q : terminated_ q = true → not_empty_pred q = true.
Proof. unfold not_empty_pred. intros ->. apply orb_true_r. Qed.

Lemma terminate_sets_flag q : terminated_ (terminate q) = true.
Proof. reflexivity. Qed.

Lemma terminate_idempotent q : terminate (terminate q) = terminate q.
Proof. reflexivity. Qed.

Lemma terminate_keeps_items q : queue_ (terminate q) = queue_ q.
Proof. reflexivity. Qed.

(** The sleep counter only grows, and a wait that did not sleep left the
    queue as it found it. *)
Lemma wait_count (pred : Queue T → bool) env : ∀ q n b q' m,
  wait pred q env n = Woken b q' m → (n ≤ m)%nat ∧ (m = n → q' = q).
Proof.
  induction env as [|w env IH]; intros q n b q' m; simpl;
    destruct (pred q); try discriminate.
  - intros [= <- <- <-]. done.
  - intros [= <- <- <-]. done.
  - intros Hw. apply IH in Hw as [Hle _]. split; lia.
Qed.

Lemma wait_for_count (pred : Queue T → bool) env : ∀ q n b q' m,
  wait_for pred q env n = Woken b q' m → (n ≤ m)%nat ∧ (m = n → q' = q).
Proof.
  induction env as [|w env IH]; intros q n b q' m; simpl;
    destruct (pred q); try discriminate.
  - intros [= <- <- <-]. done.
  - intros [= <- <- <-]. done.
  - destruct (wake_timeout w).
    + intros [= <- <- <-]. split; lia.
    + intros Hw. apply IH in Hw as [Hle _]. split; lia.
Qed.

(** A successful push puts its item at the back of the queue. *)
Lemma push_success_at_back item timeout q env out q' n :
  push item timeout q env = Returned true out q' n →
  ∃ front, queue_ q' = front ++ [item] ∧ (n = 0%nat → front = queue_ q).
Proof.
  unfold push.
  destruct (0 <? max_size_ q)%nat, (0 <=? timeout).
  - destruct (wait_for _ _ _ _) as [|[] q1 m] eqn:Hw; try discriminate.
    apply wait_for_count in Hw as [_ Hq].
    destruct (terminated_ q1); intros [= <- <- <-].
    exists (queue_ q1). split; [done|]. intros ->. by rewrite Hq.
  - destruct (wait _ _ _ _) as [|[] q1 m] eqn:Hw; try discriminate.
    apply wait_count in Hw as [_ Hq].
    destruct (terminated_ q1); intros [= <- <- <-].
    exists (queue_ q1). split; [done|]. intros ->. by rewrite Hq.
  - destruct (terminated_ q); intros [= <- <- <-]. by exists (queue_ q).
  - destruct (terminated_ q); intros [= <- <- <-]. by exists (queue_ q).
Qed.

(** A successful pop hands out the front item; the branch of [pop] marked
    unreachable is never taken. *)
Lemma pop_success_takes_front item timeout q env out q' n :
  pop item timeout q env = Returned true out q' n →
  ∃ q1, queue_ q1 = out :: queue_ q' ∧ (n = 0%nat → q1 = q).
Proof.
  unfold pop.
  destruct (0 <=? timeout).
  - destruct (wait_for _ _ _ _) as [|[] q1 m] eqn:Hw; try discriminate.
    pose proof (wait_for_sound _ _ _ _ _ _ _ Hw) as Hp.
    apply wait_for_count in Hw as [_ Hq].
    unfold not_empty_pred in Hp.
    destruct (queue_ q1) as [|x rest] eqn:Hl.
    + destruct (terminated_ q1); [discriminate|]. by simpl in Hp.
    + intros [= <- <- <-]. exists q1. split; [done|]. intros ->. by apply Hq.
  - destruct (wait _ _ _ _) as [|[] q1 m] eqn:Hw; try discriminate.
    pose proof (wait_sound _ _ _ _ _ _ _ Hw) as [_ Hp].
    apply wait_count in Hw as [_ Hq].
    unfold not_empty_pred in Hp.
    destruct (queue_ q1) as [|x rest] eqn:Hl.
    + destruct (terminated_ q1); [discriminate|]. by simpl in Hp.
    + intros [= <- <- <-]. exists q1. split; [done|]. intros ->. by apply Hq.
Qed.

(** pop fails only with the queue empty, and then either the queue is
    terminated or the timed wait ran into its deadline. *)
Lemma pop_failure_cases item timeout q env out q' n :
  pop item timeout q env = Returned false out q' n →
  out = item ∧ queue_ q' = [] ∧
  (terminated_ q' = true ∨
   (0 ≤ timeout ∧ wait_for not_empty_pred q env 0 = Woken false q' n)).
Proof.
  unfold pop.
  destruct (0 <=? timeout) eqn:Ht.
  - destruct (wait_for _ _ _ _) as [|[] q1 m] eqn:Hw; try discriminate.
    + destruct (queue_ q1) as [|x rest] eqn:Hl; [|discriminate].
      destruct (terminated_ q1) eqn:Hterm; intros [= <- <- <-]. auto.
    + intros [= <- <- <-].
      pose proof (wait_for_sound _ _ _ _ _ _ _ Hw) as Hp.
      unfold not_empty_pred in Hp. symmetry in Hp.
      apply orb_false_iff in Hp as [Hp _].
      apply negb_false_iff, bool_decide_eq_true in Hp.
      split_and!; [done..|]. right. split; [lia|done].
  - destruct (wait _ _ _ _) as [|[] q1 m] eqn:Hw; try discriminate.
    + destruct (queue_ q1) as [|x rest] eqn:Hl; [|discriminate].
      destruct (terminated_ q1) eqn:Hterm; intros [= <- <- <-]. auto.
    + by apply wait_sound in Hw as [? _].
Qed.

(** pop on a terminated queue: no wait, front item if there is one. *)
Lemma pop_terminated item timeout q env :
  terminated_ q = true →
  pop item timeout q env =
    match queue_ q with
    | [] => Returned false item q 0
    | x :: rest => Returned true x (set_queue rest q) 0
    end.
Proof.
  intros Hterm. unfold pop.
  rewrite wait_ready, wait_for_ready by by apply not_empty_terminated.
  destruct (0 <=? timeout), (queue_ q); by rewrite ?Hterm.
Qed.

Lemma pop_many_empty_terminated (calls : list (Z * list (Wake T))) item q :
  terminated_ q = true → queue_ q = [] →
  pop_many calls item q = Some (map (λ _, (false, item)) calls, q).
Proof.
  intros Hterm Hq. induction calls as [|[t env] calls IH]; [done|].
  simpl. rewrite pop_terminated, Hq, IH; done.
Qed.

Lemma pop_many_drain (l : list T) : ∀ q item (calls more : list (Z * list (Wake T))),
  terminated_ q = true → queue_ q = l → length calls = length l →
  pop_many (calls ++ more) item q =
    Some (map (pair true) l ++ map (λ _, (false, default item (last l))) more,
          set_queue [] q).
Proof.
  induction l as [|x l IH]; intros q item calls more Hterm Hq Hlen.
  - destruct calls; [|done]. simpl.
    rewrite pop_many_empty_terminated by done.
    do 2 f_equal. destruct q; simpl in *; by subst.
  - destruct calls as [|[t env] calls]; [done|]. simpl.
    rewrite pop_terminated, Hq by done.
    rewrite (IH (set_queue l q) x calls more) by (simpl in *; done || lia).
    assert (default x (last l) = default item (last (x :: l))) as ->; [|done].
    destruct l as [|y l']; [done|]. rewrite last_cons_cons.
    by destruct (proj2 (last_is_Some (y :: l')) ltac:(done)) as [z ->].
Qed.

(** push with room left (or no bound) on a queue that is not terminated. *)
Lemma push_room item timeout q env :
  terminated_ q = false →
  (max_size_ q = 0 ∨ length (queue_ q) < max_size_ q)%nat →
  push item timeout q env =
    Returned true item (set_queue (queue_ q ++ [item]) q) 0.
Proof.
  intros Hterm Hroom. unfold push.
  destruct (0 <? max_size_ q)%nat eqn:Hbound.
  - assert (not_full_pred q = true) as Hp.
    { unfold not_full_pred. apply orb_true_iff. left.
      apply Nat.ltb_lt. apply Nat.ltb_lt in Hbound. lia. }
    rewrite wait_ready, wait_for_ready by done.
    destruct (0 <=? timeout); by rewrite Hterm.
  - by rewrite Hterm.
Qed.

Lemma push_many_room (pushes : list (T * Z * list (Wake T))) : ∀ q,
  terminated_ q = false →
  (max_size_ q = 0 ∨ length (queue_ q) + length pushes ≤ max_size_ q)%nat →
  push_many pushes q =
    Some (map (λ _, true) pushes,
          set_queue (queue_ q ++ map (λ c, c.1.1) pushes) q).
Proof.
  induction pushes as [|[[x t] env] pushes IH]; intros q Hterm Hroom.
  - simpl. rewrite app_nil_r. by destruct q.
  - simpl. rewrite push_room by (done || simpl in Hroom; lia).
    rewrite IH; simpl; [|done|rewrite length_app; simpl in *; lia].
    by rewrite <- app_assoc.
Qed.

(** C4.  Once terminate() has set the flag, push returns false at once for
    every item, every timeout (negative = wait forever) and whatever the
    other threads do: it does not sleep on the condition variable even when
    a bounded queue is full, and the queue is returned as it was, so the
    item is not added. *)
Theorem push_after_terminate_fails_immediately item timeout q env :
  terminated_ q = true →
  push item timeout q env = Returned false item q 0.
Proof.
  intros Hterm. unfold push.
  rewrite wait_ready, wait_for_ready by by apply not_full_terminated.
  destruct (0 <? max_size_ q)%nat, (0 <=? timeout); by rewrite Hterm.
Qed.

(** C5.  Items pushed before terminate() are handed out by the pops that
    follow it, oldest first, one per call and without waiting, whatever the
    timeouts; every pop after the last item fails and leaves the caller's
    variable as it was.  [pushes] are accepted by a queue that is not
    terminated and has room for them; [calls] are as many pops as there are
    items, [more] any further pops. *)
Theorem pop_after_terminate_drains_fifo q
    (pushes : list (T * Z * list (Wake T)))
    (calls more : list (Z * list (Wake T))) item :
  terminated_ q = false →
  (max_size_ q = 0 ∨ length (queue_ q) + length pushes ≤ max_size_ q)%nat →
  length calls = (length (queue_ q) + length pushes)%nat →
  ∃ q1,
    push_many pushes q = Some (map (λ _, true) pushes, q1) ∧
    queue_ q1 = queue_ q ++ map (λ c, c.1.1) pushes ∧
    pop_many (calls ++ more) item (terminate q1) =
      Some (map (pair true) (queue_ q1) ++
            map (λ _, (false, default item (last (queue_ q1)))) more,
            set_queue [] (terminate q1)).
Proof.
  intros Hterm Hroom Hlen.
  eexists. split; [by apply push_many_room|]. split; [done|].
  apply pop_many_drain; [done..|].
  simpl. by rewrite length_app, length_map.
Qed.

(** C10.  On a queue built with max_size = 0, push never sleeps and its
    result is the negation of the terminated flag, for every item, every
    timeout and whatever the other threads do; the item is appended exactly
    when the result is true. *)
Theorem unbounded_push_ignores_timeout item timeout q env :
  max_size_ q = 0%nat →
  push item timeout q env =
    Returned (negb (terminated_ q)) item
             (if terminated_ q then q
              else set_queue (queue_ q ++ [item]) q) 0.
Proof.
  intros Hmax. unfold push. rewrite Hmax. simpl.
  by destruct (terminated_ q).
Qed.

End QueueProperties.

(** A full bounded queue, terminated, and a producer willing to wait
    forever. *)
Lemma push_after_terminate_fails_immediately_witness :
  let q := ThreadSafeQueue.terminate (ThreadSafeQueue.mkQueue [1; 2] 2 false) in
  ThreadSafeQueue.terminated_ q = true ∧
  ThreadSafeQueue.push 3 (-1) q [] = ThreadSafeQueue.Returned false 3 q 0.
Proof.
  split; [reflexivity|].
  apply (push_after_terminate_fails_immediately 3 (-1)). reflexivity.
Defined.

(** Capacity 3 holding one item; two more are pushed, then the queue is
    terminated and popped four times. *)
Lemma pop_after_terminate_drains_fifo_witness :
  let q := ThreadSafeQueue.mkQueue [10] 3 false in
  let pushes := [(20, -1, []); (30, 50, [])] in
  let calls := [(-1, []); (0, []); (50, [])] in
  let more := [(-1, [])] in
  ThreadSafeQueue.terminated_ q = false ∧
  (length (ThreadSafeQueue.queue_ q) + length pushes ≤ 3)%nat ∧
  ∃ q1,
    ThreadSafeQueue.push_many pushes q = Some ([true; true], q1) ∧
    ThreadSafeQueue.queue_ q1 = [10; 20; 30] ∧
    ThreadSafeQueue.pop_many (calls ++ more) 0 (ThreadSafeQueue.terminate q1)
      = Some ([(true, 10); (true, 20); (true, 30); (false, 30)],
              ThreadSafeQueue.set_queue [] (ThreadSafeQueue.terminate q1)).
Proof.
  intros q pushes calls more.
  split; [reflexivity|]. split; [simpl; lia|].
  destruct (pop_after_terminate_drains_fifo q pushes calls more 0)
    as (q1 & Hpush & Hq1 & Hpop).
  - reflexivity.
  - right. simpl. lia.
  - reflexivity.
  - exists q1. rewrite Hq1 in Hpop. auto.
Defined.

(** An unbounded queue that is still open, and a zero timeout. *)
Lemma unbounded_push_ignores_timeout_witness :
  let q := ThreadSafeQueue.set_queue [1; 2; 3] (ThreadSafeQueue.ThreadSafeQueue 0) in
  ThreadSafeQueue.max_size_ q = 0%nat ∧
  ThreadSafeQueue.push 4 0 q []
    = ThreadSafeQueue.Returned true 4 (ThreadSafeQueue.set_queue [1; 2; 3; 4] q) 0.
Proof.
  split; [reflexivity|].
  apply (unbounded_push_ignores_timeout 4 0). reflexivity.
Defined.

(* ===================================================================== *)
(** ** Properties of the capture session *)
(* ===================================================================== *)

Section CaptureProperties.
Import CameraCapture.
Implicit Types (s : Session) (drv : Driver) (frame : CameraFrame).

Example video0_ready_pool :
  buffers_ video0_ready =
    [ mkBuffer 0x7f0000000000 614400 10;
      mkBuffer (0x7f0000000000 + 614400) 614400 11;
      mkBuffer (0x7f0000000000 + 2 * 614400) 614400 12;
      mkBuffer (0x7f0000000000 + 3 * 614400) 614400 13 ]
  ∧ initialized_ video0_ready = true
  ∧ qbuf_requests (trace video0_ready) = [0; 1; 2; 3]
  ∧ reports (trace video0_ready) = [].
Proof. vm_compute. done. Qed.

(** *** The trace filters on an extended trace *)

Lemma qbuf_requests_app t1 t2 :
  qbuf_requests (t1 ++ t2) = qbuf_requests t1 ++ qbuf_requests t2.
Proof. apply omap_app. Qed.

Lemma reqbufs_requests_app t1 t2 :
  reqbufs_requests (t1 ++ t2) = reqbufs_requests t1 ++ reqbufs_requests t2.
Proof. apply omap_app. Qed.

Lemma reports_app t1 t2 : reports (t1 ++ t2) = reports t1 ++ reports t2.
Proof. apply omap_app. Qed.

Lemma u32_range z : 0 ≤ u32 z < 2 ^ 32.
Proof. unfold u32. by apply Z.mod_pos_bound. Qed.

Lemma u32_small z : 0 ≤ z < 2 ^ 32 → u32 z = z.
Proof. unfold u32. apply Z.mod_small. Qed.

(** get_frame leaves everything but the trace alone and asks for no
    enqueue. *)
Lemma get_frame_session sel dq frame s :
  let s' := (get_frame sel dq frame s).2 in
  buffers_ s' = buffers_ s ∧ mapped s' = mapped s ∧
  running_ s' = running_ s ∧
  qbuf_requests (trace s') = qbuf_requests (trace s).
Proof.
  unfold get_frame. cbv zeta.
  repeat case_match; simpl; rewrite ?qbuf_requests_app; simpl;
    rewrite ?app_nil_r; done.
Qed.

(** C1 (as the code has it).  release checks the range of the index and
    nothing else.  Out of range (negative, or not below the pool size): it
    returns false, makes no request and leaves the session as it is.  In
    range: it always asks the device to enqueue that buffer, whether or not
    the buffer was released before, and returns the driver's answer.  In
    both cases the pool (buffers and size) and the mappings are unchanged. *)
Theorem release_checks_range_only index accepted s :
  let '(r, s') := return_buffer_to_queue index accepted s in
  buffers_ s' = buffers_ s ∧ mapped s' = mapped s ∧
  if bool_decide (0 ≤ index < Z.of_nat (length (buffers_ s)))
  then r = accepted ∧
       qbuf_requests (trace s') = qbuf_requests (trace s) ++ [u32 index]
  else r = false ∧ s' = s.
Proof.
  unfold return_buffer_to_queue.
  case_bool_decide as Hrange.
  - assert ((index <? 0) || (Z.of_nat (length (buffers_ s)) <=? index) = false)
      as -> by (apply orb_false_iff; split; lia).
    destruct accepted; simpl; rewrite !qbuf_requests_app; simpl;
      rewrite ?app_nil_r; done.
  - assert ((index <? 0) || (Z.of_nat (length (buffers_ s)) <=? index) = true)
      as -> by (apply orb_true_iff; lia).
    done.
Qed.

(** C1 (as stated) fails: buffer 1 of a 4-buffer pool is dequeued and
    released, which makes it Free again; the second release of the same
    index is sent to the device like the first and, the driver accepting
    it, reports success. *)
Lemma second_release_is_requeued :
  let dq := DqbufDone (mk_v4l2_buffer 1 614400 (100, 0) 0) in
  let '(_, frame, s1) := get_frame SelectReady dq blank_frame video0_ready in
  let '(r1, s2) := return_buffer_to_queue (buf_index frame) true s1 in
  let '(r2, s3) := return_buffer_to_queue (buf_index frame) true s2 in
  buf_index frame = 1 ∧ r1 = true ∧
  r2 = true ∧
  qbuf_requests (trace s3) = qbuf_requests (trace s2) ++ [1] ∧
  s3 ≠ s2.
Proof. vm_compute. split_and!; try done. Qed.

(** C8.  A dequeued buffer whose index is not below the pool size is
    refused: get_frame reports "Invalid buffer index", returns false and
    leaves the caller's frame untouched.  Otherwise the frame it fills
    refers to the pool element at that index. *)
Theorem get_frame_revalidates_index buf frame s :
  let idx := u32 (index buf) in
  let '(ok, frame', s') := get_frame SelectReady (DqbufDone buf) frame s in
  if bool_decide (idx < Z.of_nat (length (buffers_ s)))
  then ok = true ∧
       ∃ b, buffers_ s !! Z.to_nat idx = Some b ∧
            data frame' = buf_start b ∧ frame_length frame' = buf_length b ∧
            fd frame' = buf_dma_fd b ∧ return_buffer frame' = Some idx
  else ok = false ∧ frame' = frame ∧
       s' = report_error "Invalid buffer index"
                         (emit VIDIOC_DQBUF (emit SysSelect s)).
Proof.
  unfold get_frame. simpl.
  pose proof (u32_range (index buf)) as [Hnn _].
  case_bool_decide as Hrange.
  - destruct (Z.of_nat (length (buffers_ s)) <=? u32 (index buf)) eqn:Hle;
      [lia|].
    split; [done|].
    destruct (lookup_lt_is_Some_2 (buffers_ s) (Z.to_nat (u32 (index buf))))
      as [b Hb]; [lia|].
    exists b. simpl. by rewrite (list_lookup_total_correct _ _ _ Hb).
  - destruct (Z.of_nat (length (buffers_ s)) <=? u32 (index buf)) eqn:Hle;
      [done|lia].
Qed.

(** A pass of the loop that obtained a frame ends with the call of the
    sink: nothing is done to the session after it. *)
Lemma capture_iteration_delivers (callback : option FrameCallback)
      sel dq s frame s1 :
  get_frame sel dq blank_frame s = (true, frame, s1) →
  capture_iteration callback sel dq s =
    match callback with Some cb => cb frame s1 | None => s1 end.
Proof. intros Hget. unfold capture_iteration. by rewrite Hget. Qed.

(** A pass that obtained no frame sleeps and asks for no enqueue. *)
Lemma capture_iteration_retry (callback : option FrameCallback)
      sel dq s frame s1 :
  get_frame sel dq blank_frame s = (false, frame, s1) →
  capture_iteration callback sel dq s = emit (SysSleep 5) s1.
Proof. intros Hget. unfold capture_iteration. by rewrite Hget. Qed.

(** C3.  The enqueue requests made during a run of the capture loop are
    exactly those the sink makes for the frames delivered to it, in order
    of delivery: if each call of the sink asks for [released frame], a run
    of the loop asks for the concatenation of these over the delivered
    frames and for nothing else.  The loop itself never re-queues a
    delivered buffer; with no sink registered nothing is re-queued. *)
Theorem capture_loop_never_releases (callback : option FrameCallback)
    (released : CameraFrame → list Z) answers s :
  (∀ cb frame s', callback = Some cb →
     qbuf_requests (trace (cb frame s')) =
       qbuf_requests (trace s') ++ released frame) →
  qbuf_requests (trace (capture_thread callback answers s)) =
    qbuf_requests (trace s) ++
    match callback with
    | Some _ => concat (map released (delivered_frames callback answers s))
    | None => []
    end.
Proof.
  intros Hsink. revert s.
  assert (∀ s, qbuf_requests (trace s) = qbuf_requests (trace s) ++
            match callback with Some _ => @nil Z | None => [] end) as Hnil.
  { intros s. destruct callback; by rewrite app_nil_r. }
  induction answers as [|[sel dq] answers IH]; intros s; simpl.
  { destruct callback; by rewrite app_nil_r. }
  destruct (running_ s); [|by apply Hnil].
  rewrite IH. clear IH.
  pose proof (get_frame_session sel dq blank_frame s) as (_ & _ & _ & Hq).
  destruct (get_frame sel dq blank_frame s) as [[ok frame] s1] eqn:Hget.
  simpl in Hq. destruct ok.
  - rewrite (capture_iteration_delivers _ _ _ _ _ _ Hget).
    destruct callback as [cb|]; simpl.
    + rewrite (Hsink cb) by done. by rewrite Hq, <- app_assoc.
    + by rewrite Hq.
  - rewrite (capture_iteration_retry _ _ _ _ _ _ Hget). simpl.
    rewrite qbuf_requests_app, Hq. simpl. by rewrite app_nil_r.
Qed.

(** *** Buffer allocation *)

(** The two loops of request_buffers() keep the pool size and ask for no
    further buffers. *)
Lemma map_loop_pool drv indices : ∀ s,
  let s' := (map_loop drv indices s).2 in
  length (buffers_ s') = length (buffers_ s) ∧
  reqbufs_requests (trace s') = reqbufs_requests (trace s).
Proof.
  induction indices as [|i indices IH]; intros s; [done|].
  cbn [map_loop]. unfold sys_mmap, export_dma_buf. cbv zeta.
  repeat case_match; simplify_eq; simpl;
    try match goal with |- context [map_loop drv indices ?s0] =>
          destruct (IH s0) as [-> ->] end;
    simpl; rewrite ?length_alter, ?reqbufs_requests_app; simpl;
    by rewrite ?app_nil_r.
Qed.

Lemma queue_loop_pool drv indices : ∀ s,
  let s' := (queue_loop drv indices s).2 in
  buffers_ s' = buffers_ s ∧ mapped s' = mapped s ∧
  reqbufs_requests (trace s') = reqbufs_requests (trace s).
Proof.
  induction indices as [|i indices IH]; intros s; [done|].
  cbn [queue_loop]. cbv zeta.
  destruct (qbuf drv (u32 (Z.of_nat i))); simpl.
  - destruct (IH (emit (VIDIOC_QBUF (u32 (Z.of_nat i))) s)) as (-> & -> & ->).
    simpl. rewrite reqbufs_requests_app. simpl. by rewrite app_nil_r.
  - rewrite !reqbufs_requests_app. simpl. by rewrite !app_nil_r.
Qed.

(** request_buffers() always asks for 4 buffers; when it succeeds the pool
    has the size the driver granted, which is at least 2. *)
Lemma request_buffers_count drv s :
  let '(ok, s') := request_buffers drv s in
  reqbufs_requests (trace s') = reqbufs_requests (trace s) ++ [4] ∧
  (ok = true →
   ∃ count, reqbufs drv 4 = Some count ∧ 2 ≤ count ∧
            length (buffers_ s') = Z.to_nat count).
Proof.
  unfold request_buffers. cbv zeta.
  destruct (reqbufs drv 4) as [count|]; simpl.
  2: { rewrite !reqbufs_requests_app. simpl. by rewrite app_nil_r. }
  destruct (count <? 2) eqn:Hcount; simpl.
  { rewrite !reqbufs_requests_app. simpl. by rewrite app_nil_r. }
  match goal with |- context [map_loop drv ?idx ?s0] =>
    pose proof (map_loop_pool drv idx s0) as [Hlen Hreq];
    destruct (map_loop drv idx s0) as [ok1 s1] end.
  simpl in Hlen, Hreq. rewrite length_resize in Hlen.
  rewrite reqbufs_requests_app in Hreq. simpl in Hreq.
  destruct ok1.
  - match goal with |- context [queue_loop drv ?idx ?s0] =>
      pose proof (queue_loop_pool drv idx s0) as (Hb & _ & Hreq2);
      destruct (queue_loop drv idx s0) as [ok2 s2] end.
    simpl in Hb, Hreq2. rewrite Hreq2, Hreq, Hb, Hlen. split; [done|].
    intros _. exists count. split_and!; [done|lia|done].
  - split; [done|]. discriminate.
Qed.

(** *** initialize() *)

(** initialize() on a session not yet initialised asks for buffers at most
    once, and then for 4; when it succeeds it did ask, and the pool has the
    size the driver granted. *)
Lemma initialize_count drv s :
  initialized_ s = false →
  let '(ok, s') := initialize drv s in
  (∃ made : bool,
     reqbufs_requests (trace s') =
       reqbufs_requests (trace s) ++ (if made then [4] else [])) ∧
  (ok = true →
   reqbufs_requests (trace s') = reqbufs_requests (trace s) ++ [4] ∧
   ∃ count, reqbufs drv 4 = Some count ∧ 2 ≤ count ∧
            length (buffers_ s') = Z.to_nat count).
Proof.
  intros Hinit. unfold initialize. rewrite Hinit. cbv zeta.
  repeat case_match; simplify_eq;
    try (split; [exists false; simpl; rewrite ?reqbufs_requests_app; simpl;
                 by rewrite ?app_nil_r | discriminate]).
  - match goal with H : request_buffers drv ?s0 = _ |- _ =>
      pose proof (request_buffers_count drv s0) as Hreq;
      rewrite H in Hreq; destruct Hreq as [Hreq Hcount] end.
    simpl in *. rewrite !reqbufs_requests_app in Hreq. simpl in Hreq.
    rewrite !app_nil_r in Hreq.
    split; [by exists true|]. intros _. split; [done|]. by apply Hcount.
  - match goal with H : request_buffers drv ?s0 = _ |- _ =>
      pose proof (request_buffers_count drv s0) as Hreq;
      rewrite H in Hreq; destruct Hreq as [Hreq Hcount] end.
    simpl in *. rewrite !reqbufs_requests_app in Hreq. simpl in Hreq.
    rewrite !app_nil_r in Hreq.
    split; [by exists true|]. discriminate.
Qed.

(** C9 (as the code has it).  The constructor takes the device path, the
    width, the height, the frame rate and the pixel format, and no pool
    size: whatever these are and whatever the driver answers, the only
    buffer count initialize() ever asks for is 4.  When it succeeds the
    pool has the size the driver granted for that request, at least 2. *)
Theorem requested_pool_size_is_always_four
    (device_path : string) (width height fps pixel_format : Z) drv :
  let '(ok, s') :=
    initialize drv (CameraCapture device_path width height fps pixel_format) in
  Forall (λ n, n = 4) (reqbufs_requests (trace s')) ∧
  if ok then
    reqbufs_requests (trace s') = [4] ∧
    ∃ count, reqbufs drv 4 = Some count ∧ 2 ≤ count ∧
             length (buffers_ s') = Z.to_nat count
  else True.
Proof.
  pose proof (initialize_count drv
    (CameraCapture device_path width height fps pixel_format) eq_refl) as H.
  destruct (initialize _ _) as [ok s']. destruct H as [[made Hmade] Hok].
  simpl in Hmade. split.
  - rewrite Hmade. destruct made; by repeat constructor.
  - destruct ok; [|done]. by apply Hok.
Qed.

(** C9 (as stated) fails: a caller who wants a pool of 8 buffers has no way
    to get the device asked for 8, whatever the constructor arguments and
    the driver; two sessions differing in every constructor argument both
    ask for 4. *)
Lemma pool_size_cannot_be_chosen :
  (¬ ∃ device_path width height fps pixel_format drv,
       8 ∈ reqbufs_requests
             (trace (initialize drv (CameraCapture device_path width height
                                                   fps pixel_format)).2)) ∧
  reqbufs_requests (trace (initialize good_driver video0).2) = [4] ∧
  reqbufs_requests
    (trace (initialize good_driver
              (CameraCapture "/dev/video2" 1280 720 60 0x47504A4D)).2) = [4].
Proof.
  split; [|by vm_compute].
  intros (device_path & width & height & fps & pixel_format & drv & Hin).
  pose proof (initialize_count drv
    (CameraCapture device_path width height fps pixel_format) eq_refl) as H.
  destruct (initialize _ _) as [ok s']. destruct H as [[made Hmade] _].
  simpl in Hin, Hmade. rewrite Hmade in Hin.
  destruct made.
  - by apply list_elem_of_singleton in Hin.
  - by apply elem_of_nil in Hin.
Qed.

Local Ltac trace_suffix :=
  simpl; rewrite <- ?app_assoc; simpl;
  eexists; split; [reflexivity|].

Local Ltac not_in_trace :=
  rewrite ?elem_of_cons, ?elem_of_nil; intros ?; destruct_or?; done.

(** C6 (as the code has it).  A rejected frame-rate request is fatal:
    whenever the driver refuses VIDIOC_S_PARM, initialize() returns false
    and leaves the session uninitialised, without asking for buffers and
    with the pool and the mappings as they were; if the request was made,
    the last thing initialize() did was to report the failure. *)
Theorem frame_rate_failure_is_fatal drv s :
  initialized_ s = false →
  s_parm drv 1 (fps_ s) = false →
  let '(ok, s') := initialize drv s in
  ok = false ∧ initialized_ s' = false ∧
  buffers_ s' = buffers_ s ∧ mapped s' = mapped s ∧
  ∃ t, trace s' = trace s ++ t ∧
       reqbufs_requests t = [] ∧
       (VIDIOC_S_PARM 1 (fps_ s) ∈ t →
        last t = Some (Report "Failed to set frame rate")).
Proof.
  intros Hinit Hparm. unfold initialize. rewrite Hinit. cbv zeta.
  repeat case_match; simplify_eq; simpl in *; try congruence;
    split_and!; try done; trace_suffix; (split; [done|]);
    try done; not_in_trace.
Qed.

(** C6 (as stated) fails: a camera whose driver rejects the frame-rate
    request and accepts everything else.  initialize() reports the failure
    and returns false; no buffer is ever requested and the session is not
    initialised, although the same camera with an accepting driver
    initialises. *)
Lemma frame_rate_rejection_aborts_initialize :
  let '(ok, s') := initialize fixed_rate_driver video0 in
  ok = false ∧ initialized_ s' = false ∧
  reports (trace s') = ["Failed to set frame rate"] ∧
  reqbufs_requests (trace s') = [] ∧ buffers_ s' = [] ∧
  (initialize good_driver video0).1 = true.
Proof. by vm_compute. Qed.

(** C7.  Whenever the driver's answer to VIDIOC_S_FMT is not the exact
    width, height and pixel format asked for (it refuses, or it writes back
    a different value for any of the three), initialize() returns false and
    leaves the session uninitialised: the stride is not taken from the
    answer, no frame-rate request and no buffer request follow, and if the
    format request was made, the last thing initialize() did was to report
    the format error. *)
Theorem inexact_format_fails_initialize drv s :
  initialized_ s = false →
  (∀ bytesperline,
     s_fmt drv (width_ s) (height_ s) (pixel_format_ s)
     ≠ Some (width_ s, height_ s, pixel_format_ s, bytesperline)) →
  let '(ok, s') := initialize drv s in
  ok = false ∧ initialized_ s' = false ∧ stride_ s' = stride_ s ∧
  buffers_ s' = buffers_ s ∧ mapped s' = mapped s ∧
  ∃ t, trace s' = trace s ++ t ∧
       reqbufs_requests t = [] ∧
       (∀ n d, VIDIOC_S_PARM n d ∉ t) ∧
       (VIDIOC_S_FMT (width_ s) (height_ s) (pixel_format_ s) ∈ t →
        last t = Some (Report
          match s_fmt drv (width_ s) (height_ s) (pixel_format_ s) with
          | None => "Failed to set video format"
          | Some _ => "Device does not support requested format"
          end)).
Proof.
  intros Hinit Hfmt. unfold initialize. rewrite Hinit. cbv zeta.
  cbn [width_ height_ pixel_format_ emit set_trace set_fd].
  destruct (s_fmt drv (width_ s) (height_ s) (pixel_format_ s))
    as [[[[w h] pf] bytesperline]|] eqn:Hanswer.
  - destruct (negb (w =? width_ s) || negb (h =? height_ s)
              || negb (pf =? pixel_format_ s)) eqn:Hexact.
    + repeat case_match; simplify_eq; simpl in *;
        split_and!; try done; trace_suffix; (split; [done|]);
        (split; [intros ??; not_in_trace|]); try done; not_in_trace.
    + apply orb_false_iff in Hexact as [Hexact ?%negb_false_iff%Z.eqb_eq].
      apply orb_false_iff in Hexact as
          [?%negb_false_iff%Z.eqb_eq ?%negb_false_iff%Z.eqb_eq].
      subst. by destruct (Hfmt bytesperline).
  - repeat case_match; simplify_eq; simpl in *;
      split_and!; try done; trace_suffix; (split; [done|]);
      (split; [intros ??; not_in_trace|]); try done; not_in_trace.
Qed.

(** *** Mapped regions *)

(** The destructor of an initialised session unmaps its four regions. *)
Example destroy_unmaps_initialised_pool :
  length (mapped video0_ready) = 4%nat ∧
  mapped (destroy true video0_ready) = [] ∧
  buffers_ (destroy true video0_ready) = [].
Proof. by vm_compute. Qed.

(** C2 on the code: the driver grants 4 buffers, the first is mapped, mmap
    fails for the second.  request_buffers() reports "mmap failed" and
    returns false without a single munmap: the region of the first buffer
    is still mapped when initialize() returns false, and since
    [initialized_] stays false the destructor does not unmap it either. *)
Lemma mmap_failure_leaves_region_mapped :
  let '(ok, s') := initialize second_mmap_fails_driver video0 in
  ok = false ∧ initialized_ s' = false ∧
  reports (trace s') = ["mmap failed"] ∧
  mapped s' = [(0x7f0000000000, 614400)] ∧
  munmap_requests (trace s') = [] ∧
  mapped (destroy true s') = [(0x7f0000000000, 614400)] ∧
  (request_buffers second_mmap_fails_driver (set_fd 3 video0)).1 = false ∧
  mapped (request_buffers second_mmap_fails_driver (set_fd 3 video0)).2
    = [(0x7f0000000000, 614400)].
Proof. by vm_compute. Qed.

End CaptureProperties.

(** The sink of example.cpp copies the frame into the encoder's queue and
    does nothing to the session.  Three passes: buffer 2 is delivered, a
    timeout, buffer 0 is delivered; the only enqueue requests in the trace
    are the four made by initialize(). *)
Lemma capture_loop_never_releases_witness :
  let sink : CameraCapture.FrameCallback := λ _ s, s in
  let answers :=
    [ (CameraCapture.SelectReady,
       CameraCapture.DqbufDone (CameraCapture.mk_v4l2_buffer 2 614400 (100, 0) 0));
      (CameraCapture.SelectTimeout, CameraCapture.DqbufError CameraCapture.EAGAIN);
      (CameraCapture.SelectReady,
       CameraCapture.DqbufDone (CameraCapture.mk_v4l2_buffer 0 614400 (100, 33333) 1)) ] in
  let s := CameraCapture.set_running true CameraCapture.video0_ready in
  (∀ cb frame s', Some sink = Some cb →
     CameraCapture.qbuf_requests (CameraCapture.trace (cb frame s')) =
       CameraCapture.qbuf_requests (CameraCapture.trace s') ++ []) ∧
  map CameraCapture.buf_index
      (CameraCapture.delivered_frames (Some sink) answers s) = [2; 0] ∧
  CameraCapture.qbuf_requests
    (CameraCapture.trace (CameraCapture.capture_thread (Some sink) answers s))
    = [0; 1; 2; 3].
Proof.
  intros sink answers s.
  assert (∀ cb frame s', Some sink = Some cb →
     CameraCapture.qbuf_requests (CameraCapture.trace (cb frame s')) =
       CameraCapture.qbuf_requests (CameraCapture.trace s') ++ []) as Hsink.
  { intros cb frame s' [= <-]. by rewrite app_nil_r. }
  split; [exact Hsink|]. split; [by vm_compute|].
  rewrite (capture_loop_never_releases (Some sink) (λ _, []) answers s Hsink).
  by vm_compute.
Defined.

(** The camera whose driver rejects the frame-rate request. *)
Lemma frame_rate_failure_is_fatal_witness :
  CameraCapture.initialized_ CameraCapture.video0 = false ∧
  CameraCapture.s_parm CameraCapture.fixed_rate_driver 1 30 = false ∧
  let '(ok, s') :=
    CameraCapture.initialize CameraCapture.fixed_rate_driver
                             CameraCapture.video0 in
  ok = false ∧ CameraCapture.initialized_ s' = false ∧
  CameraCapture.buffers_ s' = [] ∧ CameraCapture.mapped s' = [] ∧
  ∃ t, CameraCapture.trace s' = [] ++ t ∧
       CameraCapture.reqbufs_requests t = [] ∧
       (CameraCapture.VIDIOC_S_PARM 1 30 ∈ t →
        last t = Some (CameraCapture.Report "Failed to set frame rate")).
Proof.
  split; [reflexivity|]. split; [reflexivity|].
  apply (frame_rate_failure_is_fatal CameraCapture.fixed_rate_driver
                                     CameraCapture.video0); reflexivity.
Defined.

(** 640x480 asked of the sensor that only delivers 320x240. *)
Lemma inexact_format_fails_initialize_witness :
  CameraCapture.initialized_ CameraCapture.video0 = false ∧
  CameraCapture.s_fmt CameraCapture.small_sensor_driver
                      640 480 CameraCapture.V4L2_PIX_FMT_YUYV
    = Some (320, 240, CameraCapture.V4L2_PIX_FMT_YUYV, 640) ∧
  (CameraCapture.initialize CameraCapture.small_sensor_driver
                            CameraCapture.video0).1 = false.
Proof.
  split; [reflexivity|]. split; [reflexivity|].
  pose proof (inexact_format_fails_initialize
                CameraCapture.small_sensor_driver CameraCapture.video0
                eq_refl) as H.
  destruct (CameraCapture.initialize _ _) as [ok s'].
  apply H. intros bytesperline. vm_compute. discriminate.
Defined.

(* ===================================================================== *)
(** ** Further properties of the queue: blocking, wake-ups, capacity *)
(* ===================================================================== *)

Section QueueBlocking.
Import ThreadSafeQueue.
Context {T : Type}.
Implicit Types (q : Queue T) (env stay rest : list (Wake T)) (w : Wake T)
         (item : T).

Lemma observe_observe w w' q : observe w (observe w' q) = observe w q.
Proof. reflexivity. Qed.

Lemma observe_foldl stay : ∀ q w,
  observe w (foldl (λ q0 w0, observe w0 q0) q stay) = observe w q.
Proof. induction stay as [|w' stay IH]; intros q w; simpl; [done|]. by rewrite IH. Qed.

Lemma wait_max_size (pred : Queue T → bool) env : ∀ q n b q' m,
  wait pred q env n = Woken b q' m → max_size_ q' = max_size_ q.
Proof.
  induction env as [|w env IH]; intros q n b q' m; simpl;
    destruct (pred q); try discriminate; try by intros [= <- <- <-].
  intros Hw. by apply IH in Hw.
Qed.

Lemma wait_for_max_size (pred : Queue T → bool) env : ∀ q n b q' m,
  wait_for pred q env n = Woken b q' m → max_size_ q' = max_size_ q.
Proof.
  induction env as [|w env IH]; intros q n b q' m; simpl;
    destruct (pred q); try discriminate; try by intros [= <- <- <-].
  destruct (wake_timeout w); [by intros [= <- <- <-]|].
  intros Hw. by apply IH in Hw.
Qed.

(** Wake-ups that find the predicate still false (and, for the timed
    wait, are not the deadline) are slept through. *)
Lemma wait_skip (pred : Queue T → bool) stay : ∀ q env n,
  pred q = false →
  Forall (λ w, pred (observe w q) = false) stay →
  wait pred q (stay ++ env) n =
    match env with
    | [] => StillWaiting
    | w :: env' => wait pred (observe w q) env' (S (n + length stay))
    end.
Proof.
  induction stay as [|w stay IH]; intros q env n Hq Hstay; simpl.
  - destruct env; simpl; rewrite Hq; [done|]. by rewrite Nat.add_0_r.
  - rewrite Hq. apply Forall_cons in Hstay as [Hw Hstay].
    rewrite IH; [| done |].
    + destruct env; [done|]. rewrite observe_observe. do 2 f_equal. lia.
    + eapply Forall_impl; [exact Hstay|]. intros w'. by rewrite observe_observe.
Qed.

Lemma wait_for_skip (pred : Queue T → bool) stay : ∀ q env n,
  pred q = false →
  Forall (λ w, wake_timeout w = false ∧ pred (observe w q) = false) stay →
  wait_for pred q (stay ++ env) n =
    match env with
    | [] => StillWaiting
    | w :: env' =>
        if wake_timeout w
        then Woken (pred (observe w q)) (observe w q) (S (n + length stay))
        else wait_for pred (observe w q) env' (S (n + length stay))
    end.
Proof.
  induction stay as [|w stay IH]; intros q env n Hq Hstay; simpl.
  - destruct env; simpl; rewrite Hq; [done|]. by rewrite Nat.add_0_r.
  - rewrite Hq. apply Forall_cons in Hstay as [[Hflag Hw] Hstay].
    rewrite Hflag, IH; [| done |].
    + destruct env; [done|]. rewrite observe_observe.
      replace (S (S n + length stay)) with (S (n + S (length stay))) by lia.
      done.
    + eapply Forall_impl; [exact Hstay|]. intros w'. by rewrite observe_observe.
Qed.

(** A timed wait that ended unsatisfied ended on a deadline wake-up, in the
    state that wake-up showed. *)
Lemma wait_for_deadline (pred : Queue T → bool) env : ∀ q n q' m,
  wait_for pred q env n = Woken false q' m →
  ∃ k w, env !! k = Some w ∧ wake_timeout w = true ∧ m = S (n + k) ∧
         q' = observe w q.
Proof.
  induction env as [|w env IH]; intros q n q' m; simpl;
    destruct (pred q) eqn:Hp; try discriminate.
  destruct (wake_timeout w) eqn:Hflag.
  - intros [= Hpred <- <-]. exists 0%nat, w. rewrite Nat.add_0_r. done.
  - intros Hw. apply IH in Hw as (k & w' & Hk & Hflag' & -> & ->).
    exists (S k), w'. split_and!; [done|done|lia|done].
Qed.

Lemma not_full_false q :
  not_full_pred q = false ↔
  (max_size_ q ≤ length (queue_ q))%nat ∧ terminated_ q = false.
Proof.
  unfold not_full_pred. rewrite orb_false_iff, Nat.ltb_ge. done.
Qed.

Lemma not_empty_false q :
  not_empty_pred q = false ↔ queue_ q = [] ∧ terminated_ q = false.
Proof.
  unfold not_empty_pred.
  rewrite orb_false_iff, negb_false_iff, bool_decide_eq_true. done.
Qed.

(** X1.  A bounded queue never grows past its bound through push: after a
    successful push on a queue with max_size > 0 the queue holds at most
    max_size items, however long the push slept and whatever the other
    threads did meanwhile. *)
Theorem push_respects_capacity item timeout q env out q' n :
  (0 < max_size_ q)%nat →
  push item timeout q env = Returned true out q' n →
  max_size_ q' = max_size_ q ∧ (length (queue_ q') ≤ max_size_ q)%nat.
Proof.
  intros Hbound. unfold push.
  apply Nat.ltb_lt in Hbound. rewrite Hbound.
  assert (∀ q1, max_size_ q1 = max_size_ q → not_full_pred q1 = true →
            terminated_ q1 = false →
            (length (queue_ q1 ++ [item]) ≤ max_size_ q)%nat) as Hroom.
  { intros q1 Hmax Hp Hterm. unfold not_full_pred in Hp.
    rewrite Hterm, orb_false_r in Hp. apply Nat.ltb_lt in Hp.
    rewrite length_app. simpl. lia. }
  destruct (0 <=? timeout).
  - destruct (wait_for _ _ _ _) as [|[] q1 m] eqn:Hw; try discriminate.
    pose proof (wait_for_sound _ _ _ _ _ _ _ Hw) as Hp.
    apply wait_for_max_size in Hw.
    destruct (terminated_ q1) eqn:Hterm; intros [= <- <- <-].
    simpl. split; [done|]. by apply Hroom.
  - destruct (wait _ _ _ _) as [|[] q1 m] eqn:Hw; try discriminate.
    pose proof (wait_sound _ _ _ _ _ _ _ Hw) as [_ Hp].
    apply wait_max_size in Hw.
    destruct (terminated_ q1) eqn:Hterm; intros [= <- <- <-].
    simpl. split; [done|]. by apply Hroom.
Qed.

(** X2.  A push with a timeout on a full, open bounded queue fails when the
    deadline passes with the queue still full: wake-ups before the deadline
    that still show a full queue are slept through, the item is not added
    and the queue is returned as last seen. *)
Theorem timed_push_times_out_on_full_queue item timeout q stay w rest :
  (0 < max_size_ q)%nat →
  (max_size_ q ≤ length (queue_ q))%nat → terminated_ q = false →
  0 ≤ timeout →
  Forall (λ w0, wake_timeout w0 = false ∧
                (max_size_ q ≤ length (wake_queue w0))%nat ∧
                wake_terminated w0 = false) stay →
  wake_timeout w = true →
  (max_size_ q ≤ length (wake_queue w))%nat → wake_terminated w = false →
  push item timeout q (stay ++ w :: rest) =
    Returned false item (observe w q) (S (length stay)).
Proof.
  intros Hbound Hfull Hterm Ht Hstay Hflag Hfullw Htermw. unfold push.
  apply Nat.ltb_lt in Hbound. rewrite Hbound.
  apply Z.leb_le in Ht. rewrite Ht.
  rewrite wait_for_skip, Hflag.
  - assert (not_full_pred (observe w q) = false) as ->; [|done].
    by apply not_full_false.
  - by apply not_full_false.
  - eapply Forall_impl; [exact Hstay|]. intros w0 (? & ? & ?).
    split; [done|]. by apply not_full_false.
Qed.

(** X3.  A push without timeout (timeout_ms < 0) on a full, open bounded
    queue does not return as long as every wake-up still shows the queue
    full and open: it neither fails nor adds the item. *)
Theorem untimed_push_blocks_while_full item timeout q env :
  (0 < max_size_ q)%nat →
  (max_size_ q ≤ length (queue_ q))%nat → terminated_ q = false →
  timeout < 0 →
  Forall (λ w0, (max_size_ q ≤ length (wake_queue w0))%nat ∧
                wake_terminated w0 = false) env →
  push item timeout q env = Blocked.
Proof.
  intros Hbound Hfull Hterm Ht Henv. unfold push.
  apply Nat.ltb_lt in Hbound. rewrite Hbound.
  apply Z.leb_gt in Ht. rewrite Ht.
  rewrite <- (app_nil_r env), wait_skip; [done| |].
  - by apply not_full_false.
  - eapply Forall_impl; [exact Henv|]. intros w0 ?. by apply not_full_false.
Qed.

(** X4.  terminate() releases a producer blocked on a full queue: the
    first wake-up that shows the queue terminated makes push return false,
    with or without timeout, and the item is not added. *)
Theorem terminate_wakes_blocked_push item timeout q stay w rest :
  (0 < max_size_ q)%nat →
  (max_size_ q ≤ length (queue_ q))%nat → terminated_ q = false →
  Forall (λ w0, wake_timeout w0 = false ∧
                (max_size_ q ≤ length (wake_queue w0))%nat ∧
                wake_terminated w0 = false) stay →
  wake_terminated w = true →
  push item timeout q (stay ++ w :: rest) =
    Returned false item (observe w q) (S (length stay)).
Proof.
  intros Hbound Hfull Hterm Hstay Htermw. unfold push.
  apply Nat.ltb_lt in Hbound. rewrite Hbound.
  assert (not_full_pred (observe w q) = true) as Hw
      by by apply not_full_terminated.
  destruct (0 <=? timeout).
  - rewrite wait_for_skip.
    + rewrite Hw. destruct (wake_timeout w).
      * simpl. by rewrite Htermw.
      * rewrite wait_for_ready by done. simpl. by rewrite Htermw.
    + by apply not_full_false.
    + eapply Forall_impl; [exact Hstay|]. intros w0 (? & ? & ?).
      split; [done|]. by apply not_full_false.
  - rewrite wait_skip.
    + rewrite wait_ready by done. simpl. by rewrite Htermw.
    + by apply not_full_false.
    + eapply Forall_impl; [exact Hstay|]. intros w0 (? & ? & ?).
      by apply not_full_false.
Qed.

(** X5.  Backpressure ends when a consumer makes room: a producer blocked
    on a full queue resumes at the first wake-up that shows room in a queue
    still open, and appends its item behind what the queue then holds. *)
Theorem push_resumes_when_room item timeout q stay w rest :
  (0 < max_size_ q)%nat →
  (max_size_ q ≤ length (queue_ q))%nat → terminated_ q = false →
  Forall (λ w0, wake_timeout w0 = false ∧
                (max_size_ q ≤ length (wake_queue w0))%nat ∧
                wake_terminated w0 = false) stay →
  (length (wake_queue w) < max_size_ q)%nat → wake_terminated w = false →
  push item timeout q (stay ++ w :: rest) =
    Returned true item (set_queue (wake_queue w ++ [item]) (observe w q))
             (S (length stay)).
Proof.
  intros Hbound Hfull Hterm Hstay Hroom Htermw. unfold push.
  apply Nat.ltb_lt in Hbound. rewrite Hbound.
  assert (not_full_pred (observe w q) = true) as Hw.
  { unfold not_full_pred. simpl. apply orb_true_iff. left.
    by apply Nat.ltb_lt. }
  destruct (0 <=? timeout).
  - rewrite wait_for_skip.
    + rewrite Hw. destruct (wake_timeout w).
      * simpl. by rewrite Htermw.
      * rewrite wait_for_ready by done. simpl. by rewrite Htermw.
    + by apply not_full_false.
    + eapply Forall_impl; [exact Hstay|]. intros w0 (? & ? & ?).
      split; [done|]. by apply not_full_false.
  - rewrite wait_skip.
    + rewrite wait_ready by done. simpl. by rewrite Htermw.
    + by apply not_full_false.
    + eapply Forall_impl; [exact Hstay|]. intros w0 (? & ? & ?).
      by apply not_full_false.
Qed.

(** pop on a queue that holds an item: no wait, whatever the flag. *)
Lemma pop_nonempty item timeout q env x l :
  queue_ q = x :: l →
  pop item timeout q env = Returned true x (set_queue l q) 0.
Proof.
  intros Hq. unfold pop.
  assert (not_empty_pred q = true) as Hp.
  { unfold not_empty_pred. rewrite Hq. done. }
  rewrite wait_ready, wait_for_ready by done.
  destruct (0 <=? timeout); by rewrite Hq.
Qed.

(** X6.  Hand-off to a waiting consumer: a pop blocked on an empty, open
    queue returns at the first wake-up that shows an item, with the item at
    the front of the queue it then sees, whether or not the queue has been
    terminated in the meantime and even if that wake-up is the deadline. *)
Theorem pop_receives_handoff item timeout q stay w rest x l :
  queue_ q = [] → terminated_ q = false →
  Forall (λ w0, wake_timeout w0 = false ∧ wake_queue w0 = [] ∧
                wake_terminated w0 = false) stay →
  wake_queue w = x :: l →
  pop item timeout q (stay ++ w :: rest) =
    Returned true x (set_queue l (observe w q)) (S (length stay)).
Proof.
  intros Hempty Hterm Hstay Hw. unfold pop.
  assert (not_empty_pred (observe w q) = true) as Hp.
  { unfold not_empty_pred. simpl. by rewrite Hw. }
  destruct (0 <=? timeout).
  - rewrite wait_for_skip.
    + rewrite Hp. destruct (wake_timeout w).
      * simpl. by rewrite Hw.
      * rewrite wait_for_ready by done. simpl. by rewrite Hw.
    + by apply not_empty_false.
    + eapply Forall_impl; [exact Hstay|]. intros w0 (? & ? & ?).
      split; [done|]. by apply not_empty_false.
  - rewrite wait_skip.
    + rewrite wait_ready by done. simpl. by rewrite Hw.
    + by apply not_empty_false.
    + eapply Forall_impl; [exact Hstay|]. intros w0 (? & ? & ?).
      by apply not_empty_false.
Qed.

(** X7.  terminate() releases a consumer blocked on an empty queue: the
    first wake-up that shows the queue terminated and still empty makes pop
    return false, with or without timeout, and leaves the caller's variable
    as it was. *)
Theorem terminate_wakes_blocked_pop item timeout q stay w rest :
  queue_ q = [] → terminated_ q = false →
  Forall (λ w0, wake_timeout w0 = false ∧ wake_queue w0 = [] ∧
                wake_terminated w0 = false) stay →
  wake_queue w = [] → wake_terminated w = true →
  pop item timeout q (stay ++ w :: rest) =
    Returned false item (observe w q) (S (length stay)).
Proof.
  intros Hempty Hterm Hstay Hw Htermw. unfold pop.
  assert (not_empty_pred (observe w q) = true) as Hp
      by by apply not_empty_terminated.
  destruct (0 <=? timeout).
  - rewrite wait_for_skip.
    + rewrite Hp. destruct (wake_timeout w).
      * simpl. by rewrite Hw, Htermw.
      * rewrite wait_for_ready by done. simpl. by rewrite Hw, Htermw.
    + by apply not_empty_false.
    + eapply Forall_impl; [exact Hstay|]. intros w0 (? & ? & ?).
      split; [done|]. by apply not_empty_false.
  - rewrite wait_skip.
    + rewrite wait_ready by done. simpl. by rewrite Hw, Htermw.
    + by apply not_empty_false.
    + eapply Forall_impl; [exact Hstay|]. intros w0 (? & ? & ?).
      by apply not_empty_false.
Qed.

(** X8.  A pop without timeout (timeout_ms < 0) on an empty, open queue
    does not return as long as every wake-up still shows the queue empty
    and open; wake-ups flagged as deadlines make no difference to it. *)
Theorem untimed_pop_blocks_while_empty item timeout q env :
  queue_ q = [] → terminated_ q = false →
  timeout < 0 →
  Forall (λ w0, wake_queue w0 = [] ∧ wake_terminated w0 = false) env →
  pop item timeout q env = Blocked.
Proof.
  intros Hempty Hterm Ht Henv. unfold pop.
  apply Z.leb_gt in Ht. rewrite Ht.
  rewrite <- (app_nil_r env), wait_skip; [done| |].
  - by apply not_empty_false.
  - eapply Forall_impl; [exact Henv|]. intros w0 ?. by apply not_empty_false.
Qed.

(** X9.  Every failed pop leaves the caller's variable untouched and
    returns with the queue empty; the failure is due either to termination
    or, for a call with a timeout, to a deadline wake-up (the one that
    ended the wait). *)
Theorem pop_fails_only_when_empty item timeout q env out q' n :
  pop item timeout q env = Returned false out q' n →
  out = item ∧ queue_ q' = [] ∧
  (terminated_ q' = true ∨
   (0 ≤ timeout ∧ terminated_ q' = false ∧
    ∃ k w, env !! k = Some w ∧ wake_timeout w = true ∧ n = S k ∧
           q' = observe w q)).
Proof.
  intros Hpop.
  destruct (pop_failure_cases _ _ _ _ _ _ _ Hpop) as (-> & Hq & Hcase).
  split; [done|]. split; [done|].
  destruct (terminated_ q') eqn:Hterm; [by left|right].
  destruct Hcase as [|[Ht Hw]]; [done|].
  split; [done|]. split; [done|].
  apply wait_for_deadline in Hw as (k & w & ? & ? & ? & ?). by exists k, w.
Qed.

(** The queue a wait returns with is the one it started with or one shown
    by a wake-up. *)
Lemma wait_from (pred : Queue T → bool) env : ∀ q n b q' m,
  wait pred q env n = Woken b q' m →
  q' = q ∨ ∃ w, w ∈ env ∧ q' = observe w q.
Proof.
  induction env as [|w env IH]; intros q n b q' m; simpl;
    destruct (pred q); try discriminate; try (intros [= _ <- _]; by left).
  intros Hw. right. apply IH in Hw as [->|(w' & Hin & ->)].
  - exists w. split; [by left|done].
  - exists w'. split; [by right|done].
Qed.

Lemma wait_for_from (pred : Queue T → bool) env : ∀ q n b q' m,
  wait_for pred q env n = Woken b q' m →
  q' = q ∨ ∃ w, w ∈ env ∧ q' = observe w q.
Proof.
  induction env as [|w env IH]; intros q n b q' m; simpl;
    destruct (pred q); try discriminate; try (intros [= _ <- _]; by left).
  destruct (wake_timeout w).
  - intros [= _ <- _]. right. exists w. split; [by left|done].
  - intros Hw. right. apply IH in Hw as [->|(w' & Hin & ->)].
    + exists w. split; [by left|done].
    + exists w'. split; [by right|done].
Qed.

(** X10.  Every failed push leaves the queue without the item: the queue
    returned is the one found at the call or the one shown by a wake-up.
    The failure is due either to termination or, for a call with a timeout
    on a bounded queue, to a deadline wake-up that showed the queue still
    full. *)
Theorem push_fails_without_adding item timeout q env out q' n :
  push item timeout q env = Returned false out q' n →
  out = item ∧
  (q' = q ∨ ∃ w, w ∈ env ∧ q' = observe w q) ∧
  (terminated_ q' = true ∨
   (0 ≤ timeout ∧ (0 < max_size_ q)%nat ∧
    (max_size_ q ≤ length (queue_ q'))%nat ∧
    ∃ k w, env !! k = Some w ∧ wake_timeout w = true ∧ n = S k ∧
           q' = observe w q)).
Proof.
  unfold push.
  destruct (0 <? max_size_ q)%nat eqn:Hbound.
  - apply Nat.ltb_lt in Hbound.
    destruct (0 <=? timeout) eqn:Ht.
    + destruct (wait_for _ _ _ _) as [|b q1 m] eqn:Hw; try discriminate.
      pose proof (wait_for_from _ _ _ _ _ _ _ Hw) as Hfrom.
      destruct b.
      * destruct (terminated_ q1) eqn:Hterm; intros [= <- <- <-]. auto.
      * intros [= <- <- <-]. split; [done|]. split; [done|]. right.
        pose proof (wait_for_sound _ _ _ _ _ _ _ Hw) as Hp.
        pose proof (wait_for_max_size _ _ _ _ _ _ _ Hw) as Hmax.
        symmetry in Hp. apply not_full_false in Hp as [Hfull _].
        apply wait_for_deadline in Hw as (k & w & ? & ? & ? & ?).
        split_and!; [lia|done|lia|]. by exists k, w.
    + destruct (wait _ _ _ _) as [|b q1 m] eqn:Hw; try discriminate.
      pose proof (wait_from _ _ _ _ _ _ _ Hw) as Hfrom.
      apply wait_sound in Hw as [-> _].
      destruct (terminated_ q1) eqn:Hterm; intros [= <- <- <-]. auto.
  - destruct (terminated_ q) eqn:Hterm; intros [= <- <- <-]. auto.
Qed.

(** Popping an open or terminated queue that holds enough items. *)
Lemma pop_many_items (l : list T) : ∀ q item (calls : list (Z * list (Wake T))),
  queue_ q = l → length calls = length l →
  pop_many calls item q = Some (map (pair true) l, set_queue [] q).
Proof.
  induction l as [|x l IH]; intros q item calls Hq Hlen.
  - destruct calls; [|done]. simpl. do 2 f_equal.
    destruct q; simpl in *; by subst.
  - destruct calls as [|[t env] calls]; [done|]. simpl.
    rewrite (pop_nonempty _ _ _ _ x l Hq).
    rewrite (IH (set_queue l q) x calls) by (simpl in *; done || lia).
    done.
Qed.

(** X11.  First in, first out through an open queue: what a producer
    pushes into a queue that is not terminated and has room comes out of
    the following pops in the same order, behind the items already queued;
    no call waits, whatever its timeout, and the queue ends empty. *)
Theorem push_then_pop_is_fifo q
    (pushes : list (T * Z * list (Wake T)))
    (calls : list (Z * list (Wake T))) item :
  terminated_ q = false →
  (max_size_ q = 0 ∨ length (queue_ q) + length pushes ≤ max_size_ q)%nat →
  length calls = (length (queue_ q) + length pushes)%nat →
  ∃ q1,
    push_many pushes q = Some (map (λ _, true) pushes, q1) ∧
    pop_many calls item q1 =
      Some (map (pair true) (queue_ q ++ map (λ c, c.1.1) pushes),
            set_queue [] q).
Proof.
  intros Hterm Hroom Hlen.
  eexists. split; [by apply push_many_room|].
  rewrite (pop_many_items (queue_ q ++ map (λ c, c.1.1) pushes));
    [done|done|].
  by rewrite length_app, length_map.
Qed.

End QueueBlocking.

(** *** The queue properties on concrete queues of integers *)

Lemma push_respects_capacity_witness :
  let q := ThreadSafeQueue.mkQueue [1] 2 false in
  let q' := ThreadSafeQueue.mkQueue [1; 2] 2 false in
  (0 < ThreadSafeQueue.max_size_ q)%nat ∧
  ThreadSafeQueue.push 2 0 q [] = ThreadSafeQueue.Returned true 2 q' 0 ∧
  ThreadSafeQueue.max_size_ q' = 2%nat ∧
  (length (ThreadSafeQueue.queue_ q') ≤ 2)%nat.
Proof.
  intros q q'.
  assert (0 < ThreadSafeQueue.max_size_ q)%nat as Hbound by (simpl; lia).
  assert (ThreadSafeQueue.push 2 0 q [] = ThreadSafeQueue.Returned true 2 q' 0)
    as Hpush by reflexivity.
  split; [exact Hbound|]. split; [exact Hpush|].
  exact (push_respects_capacity 2 0 q [] 2 q' 0%nat Hbound Hpush).
Defined.

(** Capacity 2, two items queued, a 50 ms timeout: one spurious wake-up,
    then the deadline. *)
Lemma timed_push_times_out_on_full_queue_witness :
  let q := ThreadSafeQueue.mkQueue [1; 2] 2 false in
  let stay := [ThreadSafeQueue.mkWake [1; 2] false false] in
  let w := ThreadSafeQueue.mkWake [1; 2] false true in
  (length (ThreadSafeQueue.queue_ q) = 2)%nat ∧
  ThreadSafeQueue.wake_timeout w = true ∧
  ThreadSafeQueue.push 3 50 q (stay ++ [w]) =
    ThreadSafeQueue.Returned false 3 q 2.
Proof.
  intros q stay w. split; [reflexivity|]. split; [reflexivity|].
  apply (timed_push_times_out_on_full_queue 3 50 q stay w []);
    simpl; try lia; try reflexivity.
  repeat constructor.
Defined.

Lemma untimed_push_blocks_while_full_witness :
  let q := ThreadSafeQueue.mkQueue [1; 2] 2 false in
  let env := [ThreadSafeQueue.mkWake [1; 2] false true;
              ThreadSafeQueue.mkWake [2; 5] false false] in
  (-1 < 0) ∧
  ThreadSafeQueue.push 3 (-1) q env = ThreadSafeQueue.Blocked.
Proof.
  intros q env. split; [lia|].
  apply (untimed_push_blocks_while_full 3 (-1) q env);
    simpl; try lia; try reflexivity.
  repeat constructor.
Defined.

Lemma terminate_wakes_blocked_push_witness :
  let q := ThreadSafeQueue.mkQueue [1; 2] 2 false in
  let w := ThreadSafeQueue.mkWake [1; 2] true false in
  ThreadSafeQueue.wake_terminated w = true ∧
  ThreadSafeQueue.push 3 (-1) q [w] =
    ThreadSafeQueue.Returned false 3 (ThreadSafeQueue.terminate q) 1.
Proof.
  intros q w. split; [reflexivity|].
  apply (terminate_wakes_blocked_push 3 (-1) q [] w []);
    simpl; try lia; try reflexivity.
  constructor.
Defined.

Lemma push_resumes_when_room_witness :
  let q := ThreadSafeQueue.mkQueue [1; 2] 2 false in
  let w := ThreadSafeQueue.mkWake [2] false false in
  (length (ThreadSafeQueue.wake_queue w) < 2)%nat ∧
  ThreadSafeQueue.push 3 (-1) q [w] =
    ThreadSafeQueue.Returned true 3 (ThreadSafeQueue.mkQueue [2; 3] 2 false) 1.
Proof.
  intros q w. split; [simpl; lia|].
  apply (push_resumes_when_room 3 (-1) q [] w []);
    simpl; try lia; try reflexivity.
  constructor.
Defined.

Lemma pop_receives_handoff_witness :
  let q := ThreadSafeQueue.ThreadSafeQueue 0 in
  let stay := [ThreadSafeQueue.mkWake [] false false] in
  let w := ThreadSafeQueue.mkWake [7; 8] false true in
  ThreadSafeQueue.queue_ q = [] ∧
  ThreadSafeQueue.pop 0 50 q (stay ++ [w]) =
    ThreadSafeQueue.Returned true 7 (ThreadSafeQueue.mkQueue [8] 0 false) 2.
Proof.
  intros q stay w. split; [reflexivity|].
  apply (pop_receives_handoff 0 50 q stay w [] 7 [8]); try reflexivity.
  repeat constructor.
Defined.

Lemma terminate_wakes_blocked_pop_witness :
  let q := ThreadSafeQueue.ThreadSafeQueue 4 in
  let w := ThreadSafeQueue.mkWake [] true false in
  ThreadSafeQueue.wake_terminated w = true ∧
  ThreadSafeQueue.pop 0 (-1) q [w] =
    ThreadSafeQueue.Returned false 0 (ThreadSafeQueue.terminate q) 1.
Proof.
  intros q w. split; [reflexivity|].
  apply (terminate_wakes_blocked_pop 0 (-1) q [] w []); try reflexivity.
  constructor.
Defined.

Lemma untimed_pop_blocks_while_empty_witness :
  let q := ThreadSafeQueue.ThreadSafeQueue 4 in
  let env := [ThreadSafeQueue.mkWake [] false true;
              ThreadSafeQueue.mkWake [] false false] in
  ThreadSafeQueue.queue_ q = [] ∧
  ThreadSafeQueue.pop 0 (-1) q env = ThreadSafeQueue.Blocked.
Proof.
  intros q env. split; [reflexivity|].
  apply (untimed_pop_blocks_while_empty 0 (-1) q env);
    first [reflexivity | lia | repeat constructor].
Defined.

(** The consumer of EncoderStreamer: pop with a 50 ms timeout on an empty
    queue, ended by the deadline. *)
Lemma pop_fails_only_when_empty_witness :
  let q := ThreadSafeQueue.ThreadSafeQueue 0 in
  let w := ThreadSafeQueue.mkWake [] false true in
  ThreadSafeQueue.pop 0 50 q [w] = ThreadSafeQueue.Returned false 0 q 1 ∧
  ThreadSafeQueue.queue_ q = [] ∧
  (ThreadSafeQueue.terminated_ q = true ∨
   (0 ≤ 50 ∧ ThreadSafeQueue.terminated_ q = false ∧
    ∃ k w0, [w] !! k = Some w0 ∧ ThreadSafeQueue.wake_timeout w0 = true ∧
            1%nat = S k ∧ q = ThreadSafeQueue.observe w0 q)).
Proof.
  intros q w.
  assert (ThreadSafeQueue.pop 0 50 q [w] = ThreadSafeQueue.Returned false 0 q 1)
    as Hpop by reflexivity.
  split; [exact Hpop|].
  exact (proj2 (pop_fails_only_when_empty 0 50 q [w] 0 q 1%nat Hpop)).
Defined.

Lemma push_fails_without_adding_witness :
  let q := ThreadSafeQueue.mkQueue [1; 2] 2 false in
  let w := ThreadSafeQueue.mkWake [1; 2] false true in
  ThreadSafeQueue.push 3 50 q [w] = ThreadSafeQueue.Returned false 3 q 1 ∧
  (q = q ∨ ∃ w0, w0 ∈ [w] ∧ q = ThreadSafeQueue.observe w0 q).
Proof.
  intros q w.
  assert (ThreadSafeQueue.push 3 50 q [w] = ThreadSafeQueue.Returned false 3 q 1)
    as Hpush by reflexivity.
  split; [exact Hpush|].
  exact (proj1 (proj2 (push_fails_without_adding 3 50 q [w] 3 q 1%nat Hpush))).
Defined.

Lemma push_then_pop_is_fifo_witness :
  let q := ThreadSafeQueue.mkQueue [10] 3 false in
  let pushes := [(20, -1, []); (30, 50, [])] in
  let calls := [(-1, []); (0, []); (50, [])] in
  ThreadSafeQueue.terminated_ q = false ∧
  (length (ThreadSafeQueue.queue_ q) + length pushes ≤ 3)%nat ∧
  ∃ q1,
    ThreadSafeQueue.push_many pushes q = Some ([true; true], q1) ∧
    ThreadSafeQueue.pop_many calls 0 q1 =
      Some ([(true, 10); (true, 20); (true, 30)],
            ThreadSafeQueue.mkQueue [] 3 false).
Proof.
  intros q pushes calls.
  split; [reflexivity|]. split; [simpl; lia|].
  apply (push_then_pop_is_fifo q pushes calls 0).
  - reflexivity.
  - right. simpl. lia.
  - reflexivity.
Defined.

(* ===================================================================== *)
(** ** Further properties of the capture session *)
(* ===================================================================== *)

Section SessionObservers.
Import CameraCapture.
Implicit Types (s : Session).

(** *** How the state changes show in the observers of a session *)

Lemma trace_emit r s : trace (emit r s) = trace s ++ [r].
Proof. by destruct s. Qed.

Lemma buffers_emit r s : buffers_ (emit r s) = buffers_ s.
Proof. by destruct s. Qed.

Lemma mapped_emit r s : mapped (emit r s) = mapped s.
Proof. by destruct s. Qed.

Lemma config_emit r s : config (emit r s) = config s.
Proof. by destruct s. Qed.

Lemma fd_emit r s : fd_ (emit r s) = fd_ s.
Proof. by destruct s. Qed.

Lemma stride_emit r s : stride_ (emit r s) = stride_ s.
Proof. by destruct s. Qed.

Lemma running_emit r s : running_ (emit r s) = running_ s.
Proof. by destruct s. Qed.

Lemma initialized_emit r s : initialized_ (emit r s) = initialized_ s.
Proof. by destruct s. Qed.

Lemma camera_id_emit r s : camera_id_ (emit r s) = camera_id_ s.
Proof. by destruct s. Qed.

Lemma device_path_emit r s : device_path_ (emit r s) = device_path_ s.
Proof. by destruct s. Qed.

Lemma width_emit r s : width_ (emit r s) = width_ s.
Proof. by destruct s. Qed.

Lemma height_emit r s : height_ (emit r s) = height_ s.
Proof. by destruct s. Qed.

Lemma fps_emit r s : fps_ (emit r s) = fps_ s.
Proof. by destruct s. Qed.

Lemma pixel_format_emit r s : pixel_format_ (emit r s) = pixel_format_ s.
Proof. by destruct s. Qed.

Lemma trace_report_error m s : trace (report_error m s) = trace s ++ [Report m].
Proof. by destruct s. Qed.

Lemma buffers_report_error m s : buffers_ (report_error m s) = buffers_ s.
Proof. by destruct s. Qed.

Lemma mapped_report_error m s : mapped (report_error m s) = mapped s.
Proof. by destruct s. Qed.

Lemma config_report_error m s : config (report_error m s) = config s.
Proof. by destruct s. Qed.

Lemma fd_report_error m s : fd_ (report_error m s) = fd_ s.
Proof. by destruct s. Qed.

Lemma stride_report_error m s : stride_ (report_error m s) = stride_ s.
Proof. by destruct s. Qed.

Lemma running_report_error m s : running_ (report_error m s) = running_ s.
Proof. by destruct s. Qed.

Lemma initialized_report_error m s : initialized_ (report_error m s) = initialized_ s.
Proof. by destruct s. Qed.

Lemma camera_id_report_error m s : camera_id_ (report_error m s) = camera_id_ s.
Proof. by destruct s. Qed.

Lemma device_path_report_error m s : device_path_ (report_error m s) = device_path_ s.
Proof. by destruct s. Qed.

Lemma width_report_error m s : width_ (report_error m s) = width_ s.
Proof. by destruct s. Qed.

Lemma height_report_error m s : height_ (report_error m s) = height_ s.
Proof. by destruct s. Qed.

Lemma fps_report_error m s : fps_ (report_error m s) = fps_ s.
Proof. by destruct s. Qed.

Lemma pixel_format_report_error m s : pixel_format_ (report_error m s) = pixel_format_ s.
Proof. by destruct s. Qed.

Lemma trace_set_buffers v s : trace (set_buffers v s) = trace s.
Proof. by destruct s. Qed.

Lemma buffers_set_buffers v s : buffers_ (set_buffers v s) = v.
Proof. by destruct s. Qed.

Lemma mapped_set_buffers v s : mapped (set_buffers v s) = mapped s.
Proof. by destruct s. Qed.

Lemma config_set_buffers v s : config (set_buffers v s) = config s.
Proof. by destruct s. Qed.

Lemma fd_set_buffers v s : fd_ (set_buffers v s) = fd_ s.
Proof. by destruct s. Qed.

Lemma stride_set_buffers v s : stride_ (set_buffers v s) = stride_ s.
Proof. by destruct s. Qed.

Lemma running_set_buffers v s : running_ (set_buffers v s) = running_ s.
Proof. by destruct s. Qed.

Lemma initialized_set_buffers v s : initialized_ (set_buffers v s) = initialized_ s.
Proof. by destruct s. Qed.

Lemma camera_id_set_buffers v s : camera_id_ (set_buffers v s) = camera_id_ s.
Proof. by destruct s. Qed.

Lemma device_path_set_buffers v s : device_path_ (set_buffers v s) = device_path_ s.
Proof. by destruct s. Qed.

Lemma width_set_buffers v s : width_ (set_buffers v s) = width_ s.
Proof. by destruct s. Qed.

Lemma height_set_buffers v s : height_ (set_buffers v s) = height_ s.
Proof. by destruct s. Qed.

Lemma fps_set_buffers v s : fps_ (set_buffers v s) = fps_ s.
Proof. by destruct s. Qed.

Lemma pixel_format_set_buffers v s : pixel_format_ (set_buffers v s) = pixel_format_ s.
Proof. by destruct s. Qed.

Lemma trace_set_mapped v s : trace (set_mapped v s) = trace s.
Proof. by destruct s. Qed.

Lemma buffers_set_mapped v s : buffers_ (set_mapped v s) = buffers_ s.
Proof. by destruct s. Qed.

Lemma mapped_set_mapped v s : mapped (set_mapped v s) = v.
Proof. by destruct s. Qed.

Lemma config_set_mapped v s : config (set_mapped v s) = config s.
Proof. by destruct s. Qed.

Lemma fd_set_mapped v s : fd_ (set_mapped v s) = fd_ s.
Proof. by destruct s. Qed.

Lemma stride_set_mapped v s : stride_ (set_mapped v s) = stride_ s.
Proof. by destruct s. Qed.

Lemma running_set_mapped v s : running_ (set_mapped v s) = running_ s.
Proof. by destruct s. Qed.

Lemma initialized_set_mapped v s : initialized_ (set_mapped v s) = initialized_ s.
Proof. by destruct s. Qed.

Lemma camera_id_set_mapped v s : camera_id_ (set_mapped v s) = camera_id_ s.
Proof. by destruct s. Qed.

Lemma device_path_set_mapped v s : device_path_ (set_mapped v s) = device_path_ s.
Proof. by destruct s. Qed.

Lemma width_set_mapped v s : width_ (set_mapped v s) = width_ s.
Proof. by destruct s. Qed.

Lemma height_set_mapped v s : height_ (set_mapped v s) = height_ s.
Proof. by destruct s. Qed.

Lemma fps_set_mapped v s : fps_ (set_mapped v s) = fps_ s.
Proof. by destruct s. Qed.

Lemma pixel_format_set_mapped v s : pixel_format_ (set_mapped v s) = pixel_format_ s.
Proof. by destruct s. Qed.

Lemma trace_set_trace v s : trace (set_trace v s) = v.
Proof. by destruct s. Qed.

Lemma buffers_set_trace v s : buffers_ (set_trace v s) = buffers_ s.
Proof. by destruct s. Qed.

Lemma mapped_set_trace v s : mapped (set_trace v s) = mapped s.
Proof. by destruct s. Qed.

Lemma config_set_trace v s : config (set_trace v s) = config s.
Proof. by destruct s. Qed.

Lemma fd_set_trace v s : fd_ (set_trace v s) = fd_ s.
Proof. by destruct s. Qed.

Lemma stride_set_trace v s : stride_ (set_trace v s) = stride_ s.
Proof. by destruct s. Qed.

Lemma running_set_trace v s : running_ (set_trace v s) = running_ s.
Proof. by destruct s. Qed.

Lemma initialized_set_trace v s : initialized_ (set_trace v s) = initialized_ s.
Proof. by destruct s. Qed.

Lemma camera_id_set_trace v s : camera_id_ (set_trace v s) = camera_id_ s.
Proof. by destruct s. Qed.

Lemma device_path_set_trace v s : device_path_ (set_trace v s) = device_path_ s.
Proof. by destruct s. Qed.

Lemma width_set_trace v s : width_ (set_trace v s) = width_ s.
Proof. by destruct s. Qed.

Lemma height_set_trace v s : height_ (set_trace v s) = height_ s.
Proof. by destruct s. Qed.

Lemma fps_set_trace v s : fps_ (set_trace v s) = fps_ s.
Proof. by destruct s. Qed.

Lemma pixel_format_set_trace v s : pixel_format_ (set_trace v s) = pixel_format_ s.
Proof. by destruct s. Qed.

Lemma trace_set_fd v s : trace (set_fd v s) = trace s.
Proof. by destruct s. Qed.

Lemma buffers_set_fd v s : buffers_ (set_fd v s) = buffers_ s.
Proof. by destruct s. Qed.

Lemma mapped_set_fd v s : mapped (set_fd v s) = mapped s.
Proof. by destruct s. Qed.

Lemma config_set_fd v s : config (set_fd v s) = set_fd v (config s).
Proof. by destruct s. Qed.

Lemma fd_set_fd v s : fd_ (set_fd v s) = v.
Proof. by destruct s. Qed.

Lemma stride_set_fd v s : stride_ (set_fd v s) = stride_ s.
Proof. by destruct s. Qed.

Lemma running_set_fd v s : running_ (set_fd v s) = running_ s.
Proof. by destruct s. Qed.

Lemma initialized_set_fd v s : initialized_ (set_fd v s) = initialized_ s.
Proof. by destruct s. Qed.

Lemma camera_id_set_fd v s : camera_id_ (set_fd v s) = camera_id_ s.
Proof. by destruct s. Qed.

Lemma device_path_set_fd v s : device_path_ (set_fd v s) = device_path_ s.
Proof. by destruct s. Qed.

Lemma width_set_fd v s : width_ (set_fd v s) = width_ s.
Proof. by destruct s. Qed.

Lemma height_set_fd v s : height_ (set_fd v s) = height_ s.
Proof. by destruct s. Qed.

Lemma fps_set_fd v s : fps_ (set_fd v s) = fps_ s.
Proof. by destruct s. Qed.

Lemma pixel_format_set_fd v s : pixel_format_ (set_fd v s) = pixel_format_ s.
Proof. by destruct s. Qed.

Lemma trace_set_stride v s : trace (set_stride v s) = trace s.
Proof. by destruct s. Qed.

Lemma buffers_set_stride v s : buffers_ (set_stride v s) = buffers_ s.
Proof. by destruct s. Qed.

Lemma mapped_set_stride v s : mapped (set_stride v s) = mapped s.
Proof. by destruct s. Qed.

Lemma config_set_stride v s : config (set_stride v s) = set_stride v (config s).
Proof. by destruct s. Qed.

Lemma fd_set_stride v s : fd_ (set_stride v s) = fd_ s.
Proof. by destruct s. Qed.

Lemma stride_set_stride v s : stride_ (set_stride v s) = v.
Proof. by destruct s. Qed.

Lemma running_set_stride v s : running_ (set_stride v s) = running_ s.
Proof. by destruct s. Qed.

Lemma initialized_set_stride v s : initialized_ (set_stride v s) = initialized_ s.
Proof. by destruct s. Qed.

Lemma camera_id_set_stride v s : camera_id_ (set_stride v s) = camera_id_ s.
Proof. by destruct s. Qed.

Lemma device_path_set_stride v s : device_path_ (set_stride v s) = device_path_ s.
Proof. by destruct s. Qed.

Lemma width_set_stride v s : width_ (set_stride v s) = width_ s.
Proof. by destruct s. Qed.

Lemma height_set_stride v s : height_ (set_stride v s) = height_ s.
Proof. by destruct s. Qed.

Lemma fps_set_stride v s : fps_ (set_stride v s) = fps_ s.
Proof. by destruct s. Qed.

Lemma pixel_format_set_stride v s : pixel_format_ (set_stride v s) = pixel_format_ s.
Proof. by destruct s. Qed.

Lemma trace_set_running v s : trace (set_running v s) = trace s.
Proof. by destruct s. Qed.

Lemma buffers_set_running v s : buffers_ (set_running v s) = buffers_ s.
Proof. by destruct s. Qed.

Lemma mapped_set_running v s : mapped (set_running v s) = mapped s.
Proof. by destruct s. Qed.

Lemma config_set_running v s : config (set_running v s) = set_running v (config s).
Proof. by destruct s. Qed.

Lemma fd_set_running v s : fd_ (set_running v s) = fd_ s.
Proof. by destruct s. Qed.

Lemma stride_set_running v s : stride_ (set_running v s) = stride_ s.
Proof. by destruct s. Qed.

Lemma running_set_running v s : running_ (set_running v s) = v.
Proof. by destruct s. Qed.

Lemma initialized_set_running v s : initialized_ (set_running v s) = initialized_ s.
Proof. by destruct s. Qed.

Lemma camera_id_set_running v s : camera_id_ (set_running v s) = camera_id_ s.
Proof. by destruct s. Qed.

Lemma device_path_set_running v s : device_path_ (set_running v s) = device_path_ s.
Proof. by destruct s. Qed.

Lemma width_set_running v s : width_ (set_running v s) = width_ s.
Proof. by destruct s. Qed.

Lemma height_set_running v s : height_ (set_running v s) = height_ s.
Proof. by destruct s. Qed.

Lemma fps_set_running v s : fps_ (set_running v s) = fps_ s.
Proof. by destruct s. Qed.

Lemma pixel_format_set_running v s : pixel_format_ (set_running v s) = pixel_format_ s.
Proof. by destruct s. Qed.

Lemma trace_set_initialized v s : trace (set_initialized v s) = trace s.
Proof. by destruct s. Qed.

Lemma buffers_set_initialized v s : buffers_ (set_initialized v s) = buffers_ s.
Proof. by destruct s. Qed.

Lemma mapped_set_initialized v s : mapped (set_initialized v s) = mapped s.
Proof. by destruct s. Qed.

Lemma config_set_initialized v s : config (set_initialized v s) = set_initialized v (config s).
Proof. by destruct s. Qed.

Lemma fd_set_initialized v s : fd_ (set_initialized v s) = fd_ s.
Proof. by destruct s. Qed.

Lemma stride_set_initialized v s : stride_ (set_initialized v s) = stride_ s.
Proof. by destruct s. Qed.

Lemma running_set_initialized v s : running_ (set_initialized v s) = running_ s.
Proof. by destruct s. Qed.

Lemma initialized_set_initialized v s : initialized_ (set_initialized v s) = v.
Proof. by destruct s. Qed.

Lemma camera_id_set_initialized v s : camera_id_ (set_initialized v s) = camera_id_ s.
Proof. by destruct s. Qed.

Lemma device_path_set_initialized v s : device_path_ (set_initialized v s) = device_path_ s.
Proof. by destruct s. Qed.

Lemma width_set_initialized v s : width_ (set_initialized v s) = width_ s.
Proof. by destruct s. Qed.

Lemma height_set_initialized v s : height_ (set_initialized v s) = height_ s.
Proof. by destruct s. Qed.

Lemma fps_set_initialized v s : fps_ (set_initialized v s) = fps_ s.
Proof. by destruct s. Qed.

Lemma pixel_format_set_initialized v s : pixel_format_ (set_initialized v s) = pixel_format_ s.
Proof. by destruct s. Qed.

Lemma trace_set_camera_id v s : trace (set_camera_id v s) = trace s.
Proof. by destruct s. Qed.

Lemma buffers_set_camera_id v s : buffers_ (set_camera_id v s) = buffers_ s.
Proof. by destruct s. Qed.

Lemma mapped_set_camera_id v s : mapped (set_camera_id v s) = mapped s.
Proof. by destruct s. Qed.

Lemma config_set_camera_id v s : config (set_camera_id v s) = set_camera_id v (config s).
Proof. by destruct s. Qed.

Lemma fd_set_camera_id v s : fd_ (set_camera_id v s) = fd_ s.
Proof. by destruct s. Qed.

Lemma stride_set_camera_id v s : stride_ (set_camera_id v s) = stride_ s.
Proof. by destruct s. Qed.

Lemma running_set_camera_id v s : running_ (set_camera_id v s) = running_ s.
Proof. by destruct s. Qed.

Lemma initialized_set_camera_id v s : initialized_ (set_camera_id v s) = initialized_ s.
Proof. by destruct s. Qed.

Lemma camera_id_set_camera_id v s : camera_id_ (set_camera_id v s) = v.
Proof. by destruct s. Qed.

Lemma device_path_set_camera_id v s : device_path_ (set_camera_id v s) = device_path_ s.
Proof. by destruct s. Qed.

Lemma width_set_camera_id v s : width_ (set_camera_id v s) = width_ s.
Proof. by destruct s. Qed.

Lemma height_set_camera_id v s : height_ (set_camera_id v s) = height_ s.
Proof. by destruct s. Qed.

Lemma fps_set_camera_id v s : fps_ (set_camera_id v s) = fps_ s.
Proof. by destruct s. Qed.

Lemma pixel_format_set_camera_id v s : pixel_format_ (set_camera_id v s) = pixel_format_ s.
Proof. by destruct s. Qed.

Lemma session_eq s1 s2 :
  config s1 = config s2 → buffers_ s1 = buffers_ s2 →
  mapped s1 = mapped s2 → trace s1 = trace s2 → s1 = s2.
Proof.
  destruct s1, s2. unfold config. simpl. intros [= -> -> -> -> -> -> -> -> -> ->].
  by intros -> -> ->.
Qed.

Lemma config_fields s1 s2 :
  config s1 = config s2 →
  device_path_ s1 = device_path_ s2 ∧ width_ s1 = width_ s2 ∧
  height_ s1 = height_ s2 ∧ stride_ s1 = stride_ s2 ∧ fps_ s1 = fps_ s2 ∧
  pixel_format_ s1 = pixel_format_ s2 ∧ camera_id_ s1 = camera_id_ s2 ∧
  fd_ s1 = fd_ s2 ∧ running_ s1 = running_ s2 ∧
  initialized_ s1 = initialized_ s2.
Proof.
  destruct s1, s2. unfold config. simpl.
  intros [= -> -> -> -> -> -> -> -> -> ->]. done.
Qed.

End SessionObservers.

Create Rewrite HintDb session.
#[global] Hint Rewrite
  trace_emit
  buffers_emit
  mapped_emit
  config_emit
  fd_emit
  stride_emit
  running_emit
  initialized_emit
  camera_id_emit
  device_path_emit
  width_emit
  height_emit
  fps_emit
  pixel_format_emit
  trace_report_error
  buffers_report_error
  mapped_report_error
  config_report_error
  fd_report_error
  stride_report_error
  running_report_error
  initialized_report_error
  camera_id_report_error
  device_path_report_error
  width_report_error
  height_report_error
  fps_report_error
  pixel_format_report_error
  trace_set_buffers
  buffers_set_buffers
  mapped_set_buffers
  config_set_buffers
  fd_set_buffers
  stride_set_buffers
  running_set_buffers
  initialized_set_buffers
  camera_id_set_buffers
  device_path_set_buffers
  width_set_buffers
  height_set_buffers
  fps_set_buffers
  pixel_format_set_buffers
  trace_set_mapped
  buffers_set_mapped
  mapped_set_mapped
  config_set_mapped
  fd_set_mapped
  stride_set_mapped
  running_set_mapped
  initialized_set_mapped
  camera_id_set_mapped
  device_path_set_mapped
  width_set_mapped
  height_set_mapped
  fps_set_mapped
  pixel_format_set_mapped
  trace_set_trace
  buffers_set_trace
  mapped_set_trace
  config_set_trace
  fd_set_trace
  stride_set_trace
  running_set_trace
  initialized_set_trace
  camera_id_set_trace
  device_path_set_trace
  width_set_trace
  height_set_trace
  fps_set_trace
  pixel_format_set_trace
  trace_set_fd
  buffers_set_fd
  mapped_set_fd
  config_set_fd
  fd_set_fd
  stride_set_fd
  running_set_fd
  initialized_set_fd
  camera_id_set_fd
  device_path_set_fd
  width_set_fd
  height_set_fd
  fps_set_fd
  pixel_format_set_fd
  trace_set_stride
  buffers_set_stride
  mapped_set_stride
  config_set_stride
  fd_set_stride
  stride_set_stride
  running_set_stride
  initialized_set_stride
  camera_id_set_stride
  device_path_set_stride
  width_set_stride
  height_set_stride
  fps_set_stride
  pixel_format_set_stride
  trace_set_running
  buffers_set_running
  mapped_set_running
  config_set_running
  fd_set_running
  stride_set_running
  running_set_running
  initialized_set_running
  camera_id_set_running
  device_path_set_running
  width_set_running
  height_set_running
  fps_set_running
  pixel_format_set_running
  trace_set_initialized
  buffers_set_initialized
  mapped_set_initialized
  config_set_initialized
  fd_set_initialized
  stride_set_initialized
  running_set_initialized
  initialized_set_initialized
  camera_id_set_initialized
  device_path_set_initialized
  width_set_initialized
  height_set_initialized
  fps_set_initialized
  pixel_format_set_initialized
  trace_set_camera_id
  buffers_set_camera_id
  mapped_set_camera_id
  config_set_camera_id
  fd_set_camera_id
  stride_set_camera_id
  running_set_camera_id
  initialized_set_camera_id
  camera_id_set_camera_id
  device_path_set_camera_id
  width_set_camera_id
  height_set_camera_id
  fps_set_camera_id
  pixel_format_set_camera_id
  : session.

Ltac observe_session := autorewrite with session.

Section Allocation.
Import CameraCapture.
Implicit Types (s : Session) (drv : Driver) (t : list Request).

Local Opaque u32 i32.

Lemma take_S_alter3 (f1 f2 f3 : Buffer → Buffer) (bs : list Buffer) k b :
  bs !! k = Some b →
  take (S k) (alter f3 k (alter f2 k (alter f1 k bs))) =
    take k bs ++ [f3 (f2 (f1 b))].
Proof.
  intros Hb.
  rewrite (take_S_r _ _ (f3 (f2 (f1 b)))).
  - by rewrite !take_alter_ge by lia.
  - rewrite !list_lookup_alter_eq, Hb. done.
Qed.

(** One pass of the mapping loop, with the state it leaves written out. *)
Lemma map_loop_cons drv i rest s :
  map_loop drv (i :: rest) s =
    match querybuf drv (u32 (Z.of_nat i)) with
    | None =>
        (false, report_error "VIDIOC_QUERYBUF failed"
                  (emit (VIDIOC_QUERYBUF (u32 (Z.of_nat i))) s))
    | Some (len, offset) =>
        let addr := mmap drv len offset in
        if addr =? MAP_FAILED then
          (false,
           report_error "mmap failed"
             (emit (SysMmap len offset)
                (emit (VIDIOC_QUERYBUF (u32 (Z.of_nat i)))
                   (set_buffers (alter (set_buf_start addr) i
                                   (alter (set_buf_length len) i (buffers_ s)))
                      s))))
        else
          let dfd := default (-1) (expbuf drv (u32 (i32 (Z.of_nat i)))) in
          let s1 :=
            emit (VIDIOC_EXPBUF (u32 (i32 (Z.of_nat i))))
              (emit (SysMmap len offset)
                 (emit (VIDIOC_QUERYBUF (u32 (Z.of_nat i)))
                    (set_mapped (mapped s ++ [(addr, len)])
                       (set_buffers
                          (alter (set_buf_dma_fd dfd) i
                             (alter (set_buf_start addr) i
                                (alter (set_buf_length len) i (buffers_ s))))
                          s)))) in
          map_loop drv rest
            (if dfd =? -1 then report_error "Failed to export DMA-BUF" s1
             else s1)
    end.
Proof.
  destruct s. cbn [map_loop]. unfold sys_mmap, export_dma_buf.
  destruct (querybuf drv (u32 (Z.of_nat i))) as [[len offset]|];
    [|reflexivity].
  cbn -[Z.eqb alter map_loop].
  destruct (mmap drv len offset =? MAP_FAILED) eqn:Hmap.
  { cbn -[Z.eqb alter map_loop]. rewrite ?Hmap. reflexivity. }
  rewrite ?Hmap.
  destruct (expbuf drv (u32 (i32 (Z.of_nat i)))) as [fd|];
    cbn -[Z.eqb alter map_loop].
  - destruct (fd =? -1); reflexivity.
  - reflexivity.
Qed.

(** The mapping loop over the indices k, k+1, ..., k+m-1 of a pool of
    k+m slots. *)
Lemma map_loop_spec drv m : ∀ k s,
  length (buffers_ s) = (k + m)%nat →
  let '(ok, s') := map_loop drv (seq k m) s in
  ok = forallb (buffer_mappable drv) (seq k m) ∧
  config s' = config s ∧
  length (buffers_ s') = length (buffers_ s) ∧
  (∃ t, trace s' = trace s ++ t ∧ Forall (λ r, setup_request r = true) t ∧
        qbuf_requests t = []) ∧
  (ok = true →
   buffers_ s' = take k (buffers_ s) ++ map (driver_buffer drv) (seq k m) ∧
   mapped s' =
     mapped s ++ map (λ i, region (driver_buffer drv i)) (seq k m)).
Proof.
  induction m as [|m IH]; intros k s Hlen.
  { simpl. split_and!; try done.
    - exists []. by rewrite app_nil_r.
    - intros _. rewrite !app_nil_r, Nat.add_0_r in *.
      split; [|done]. by rewrite take_ge by lia. }
  cbn [seq forallb]. rewrite map_loop_cons. unfold buffer_mappable at 1.
  destruct (querybuf drv (u32 (Z.of_nat k))) as [[len offset]|] eqn:Hq.
  2: { cbn [negb andb]. observe_session. split_and!; try done.
       eexists. rewrite <- app_assoc. split; [reflexivity|]. split; [|done].
       by repeat constructor. }
  cbv zeta.
  destruct (mmap drv len offset =? MAP_FAILED) eqn:Hmap.
  { cbn [negb andb]. observe_session. rewrite !length_alter.
    split_and!; try done.
    eexists. rewrite <- !app_assoc. split; [reflexivity|]. split; [|done].
    by repeat constructor. }
  destruct (lookup_lt_is_Some_2 (buffers_ s) k) as [b Hb]; [lia|].
  set (dfd := default (-1) (expbuf drv (u32 (i32 (Z.of_nat k))))).
  assert (driver_buffer drv k = mkBuffer (mmap drv len offset) len dfd)
    as Hdrv by (unfold driver_buffer; by rewrite Hq).
  match goal with |- context [map_loop drv (seq (S k) m) ?s0] =>
    specialize (IH (S k) s0); set (s7 := s0) in * end.
  assert (buffers_ s7 =
            alter (set_buf_dma_fd dfd) k
              (alter (set_buf_start (mmap drv len offset)) k
                 (alter (set_buf_length len) k (buffers_ s)))) as Hbs
    by (subst s7; destruct (dfd =? -1); by observe_session).
  assert (mapped s7 = mapped s ++ [(mmap drv len offset, len)]) as Hmapped
    by (subst s7; destruct (dfd =? -1); by observe_session).
  assert (config s7 = config s) as Hconfig
    by (subst s7; destruct (dfd =? -1); by observe_session).
  assert (∃ t, trace s7 = trace s ++ t ∧
               Forall (λ r, setup_request r = true) t ∧
               qbuf_requests t = []) as (t7 & Ht7 & Hsetup7 & Hq7).
  { subst s7. destruct (dfd =? -1); observe_session;
      rewrite <- !app_assoc; (eexists; split; [reflexivity|]);
      split; try done; by repeat constructor. }
  clearbody s7.
  rewrite Hbs, !length_alter in IH. specialize (IH ltac:(lia)).
  destruct (map_loop drv (seq (S k) m) s7) as [ok s'].
  destruct IH as (Hok & Hcfg & Hlen' & (t & Ht & Hsetup & Hqt) & Hsucc).
  cbn [negb andb]. split_and!.
  - done.
  - by rewrite Hcfg.
  - done.
  - exists (t7 ++ t). rewrite Ht, Ht7, <- app_assoc. split; [done|].
    split; [by apply Forall_app|].
    by rewrite qbuf_requests_app, Hq7, Hqt.
  - intros Hok'. destruct (Hsucc Hok') as [Hbuf Hmp].
    rewrite Hbuf, Hmp, Hmapped.
    rewrite (take_S_alter3 _ _ _ _ _ _ Hb). cbn [seq map].
    rewrite Hdrv. rewrite <- !app_assoc. done.
Qed.

(** The queueing loop. *)
Lemma queue_loop_spec drv indices : ∀ s,
  let '(ok, s') := queue_loop drv indices s in
  ok = forallb (λ i, qbuf drv (u32 (Z.of_nat i))) indices ∧
  config s' = config s ∧ buffers_ s' = buffers_ s ∧ mapped s' = mapped s ∧
  ∃ t, trace s' = trace s ++ t ∧ Forall (λ r, setup_request r = true) t ∧
       (ok = true →
        qbuf_requests t = map (λ i, u32 (Z.of_nat i)) indices).
Proof.
  induction indices as [|i indices IH]; intros s.
  { simpl. split_and!; try done. exists []. by rewrite app_nil_r. }
  cbn [queue_loop forallb]. cbv zeta.
  destruct (qbuf drv (u32 (Z.of_nat i))).
  - specialize (IH (emit (VIDIOC_QBUF (u32 (Z.of_nat i))) s)).
    destruct (queue_loop drv indices _) as [ok s'].
    destruct IH as (Hok & Hcfg & Hbuf & Hmp & t & Ht & Hsetup & Hq).
    revert Hcfg Hbuf Hmp Ht. observe_session. intros Hcfg Hbuf Hmp Ht.
    split_and!; try done.
    exists (VIDIOC_QBUF (u32 (Z.of_nat i)) :: t).
    rewrite Ht, <- app_assoc. split; [done|].
    split; [by constructor|]. intros Hok'. cbn [map].
    rewrite <- (Hq Hok'). reflexivity.
  - cbn [andb]. observe_session. split_and!; try done.
    eexists. rewrite <- app_assoc. split; [reflexivity|].
    split; [by repeat constructor|done].
Qed.

(** request_buffers(): its result in terms of the driver's answers, and
    the state it leaves on success. *)
Lemma request_buffers_spec drv s :
  let '(ok, s') := request_buffers drv s in
  ok = match reqbufs drv 4 with
       | Some count =>
           negb (count <? 2) &&
           forallb (buffer_mappable drv) (seq 0 (Z.to_nat count)) &&
           forallb (λ i, qbuf drv (u32 (Z.of_nat i))) (seq 0 (Z.to_nat count))
       | None => false
       end ∧
  config s' = config s ∧
  (∃ t, trace s' = trace s ++ t ∧ Forall (λ r, setup_request r = true) t ∧
        (ok = true →
         ∃ count, reqbufs drv 4 = Some count ∧
           qbuf_requests t =
             map (λ i, u32 (Z.of_nat i)) (seq 0 (Z.to_nat count)))) ∧
  (ok = true →
   ∃ count, reqbufs drv 4 = Some count ∧ 2 ≤ count ∧
     buffers_ s' = map (driver_buffer drv) (seq 0 (Z.to_nat count)) ∧
     mapped s' = mapped s ++ map region (buffers_ s')).
Proof.
  unfold request_buffers. cbv zeta.
  destruct (reqbufs drv 4) as [count|].
  2: { observe_session. split_and!; try done. eexists. rewrite <- app_assoc.
       split; [reflexivity|]. split; [by repeat constructor|done]. }
  destruct (count <? 2) eqn:Hcount.
  { cbn [negb andb]. observe_session. split_and!; try done.
    eexists. rewrite <- app_assoc.
    split; [reflexivity|]. split; [by repeat constructor|done]. }
  apply Z.ltb_ge in Hcount. cbn [negb andb].
  match goal with |- context [map_loop drv (seq 0 ?n) ?s0] =>
    assert (n = Z.to_nat count) as Hn
      by (observe_session; by rewrite length_resize);
    rewrite Hn;
    pose proof (map_loop_spec drv (Z.to_nat count) 0 s0) as Hmap;
    set (s1 := s0) in * end.
  assert (buffers_ s1 = resize (Z.to_nat count) Buffer_zero (buffers_ s))
    as Hbs1 by (subst s1; by observe_session).
  assert (mapped s1 = mapped s) as Hmp1' by (subst s1; by observe_session).
  assert (config s1 = config s) as Hcfg1' by (subst s1; by observe_session).
  assert (trace s1 = trace s ++ [VIDIOC_REQBUFS 4]) as Ht1'
    by (subst s1; by observe_session).
  clearbody s1.
  rewrite Hbs1, length_resize in Hmap. specialize (Hmap eq_refl).
  destruct (map_loop drv (seq 0 (Z.to_nat count)) s1) as [ok1 s2].
  destruct Hmap as (Hok1 & Hcfg1 & Hlen1 & (t1 & Ht1 & Hsetup1 & Hq1) & Hsucc1).
  destruct ok1.
  2: { rewrite <- Hok1. cbn [andb]. split_and!; try done.
       - by rewrite Hcfg1.
       - exists (VIDIOC_REQBUFS 4 :: t1). rewrite Ht1, Ht1', <- app_assoc.
         split; [done|]. split; [by constructor|done]. }
  rewrite Hlen1.
  pose proof (queue_loop_spec drv (seq 0 (Z.to_nat count)) s2) as Hqueue.
  destruct (queue_loop drv (seq 0 (Z.to_nat count)) s2) as [ok2 s3].
  destruct Hqueue as (Hok2 & Hcfg2 & Hbuf2 & Hmp2 & t2 & Ht2 & Hsetup2 & Hq2).
  destruct (Hsucc1 eq_refl) as [Hbuf1 Hmp1].
  rewrite take_0, app_nil_l in Hbuf1.
  split_and!.
  - by rewrite <- Hok1, <- Hok2.
  - by rewrite Hcfg2, Hcfg1.
  - exists (VIDIOC_REQBUFS 4 :: t1 ++ t2). rewrite Ht2, Ht1, Ht1'.
    rewrite <- !app_assoc. split; [done|].
    split; [constructor; [done|by apply Forall_app]|].
    intros Hok. exists count. split; [done|].
    change (qbuf_requests (VIDIOC_REQBUFS 4 :: t1 ++ t2))
      with (qbuf_requests (t1 ++ t2)).
    by rewrite qbuf_requests_app, Hq1, Hq2.
  - intros Hok. exists count. split; [done|]. split; [lia|].
    rewrite Hbuf2, Hmp2, Hbuf1, Hmp1, Hmp1'. split; [done|].
    by rewrite map_map.
Qed.

(** X12.  request_buffers() succeeds exactly when the driver grants at
    least 2 buffers for the request of 4 and, for every granted buffer,
    answers VIDIOC_QUERYBUF, the region can be mapped, and VIDIOC_QBUF is
    accepted.  The answers to VIDIOC_EXPBUF play no part in the result, and
    neither does the state of the session. *)
Theorem request_buffers_succeeds_iff drv s :
  (request_buffers drv s).1 =
    match reqbufs drv 4 with
    | Some count =>
        negb (count <? 2) &&
        forallb (buffer_mappable drv) (seq 0 (Z.to_nat count)) &&
        forallb (λ i, qbuf drv (u32 (Z.of_nat i))) (seq 0 (Z.to_nat count))
    | None => false
    end.
Proof.
  pose proof (request_buffers_spec drv s) as H.
  destruct (request_buffers drv s) as [ok s']. by destruct H as [-> _].
Qed.

(** X13.  After a successful request_buffers() the pool has one slot per
    granted buffer, whatever it held before; slot i records the length the
    driver reported for buffer i, the address mmap returned for it (never
    MAP_FAILED) and the exported descriptor or -1; and the regions mapped
    by the call are exactly the regions of the slots, in index order. *)
Theorem allocated_pool_matches_driver drv s s' :
  request_buffers drv s = (true, s') →
  ∃ count, reqbufs drv 4 = Some count ∧ 2 ≤ count ∧
    buffers_ s' = map (driver_buffer drv) (seq 0 (Z.to_nat count)) ∧
    mapped s' = mapped s ++ map region (buffers_ s') ∧
    Forall (λ b, buf_start b ≠ MAP_FAILED) (buffers_ s').
Proof.
  intros Hreq.
  pose proof (request_buffers_spec drv s) as H. rewrite Hreq in H.
  destruct H as (Hok & _ & _ & Hsucc).
  destruct (Hsucc eq_refl) as (count & Hcount & Hge & Hbuf & Hmp).
  exists count. split_and!; try done.
  rewrite Hcount in Hok. symmetry in Hok.
  apply andb_true_iff in Hok as [Hok _].
  apply andb_true_iff in Hok as [_ Hok].
  rewrite Hbuf. apply Forall_forall. intros b Hin.
  apply list_elem_of_In, in_map_iff in Hin as (i & <- & Hi).
  rewrite forallb_forall in Hok. apply Hok in Hi.
  unfold buffer_mappable in Hi. unfold driver_buffer.
  destruct (querybuf drv (u32 (Z.of_nat i))) as [[len offset]|]; [|done].
  cbn [buf_start]. by apply negb_true_iff, Z.eqb_neq in Hi.
Qed.

(** X14.  A successful request_buffers() hands every buffer of the pool to
    the device exactly once, in index order: its enqueue requests are those
    for the indices 0, 1, ..., size-1. *)
Theorem allocated_buffers_are_queued_in_order drv s s' :
  request_buffers drv s = (true, s') →
  qbuf_requests (trace s') =
    qbuf_requests (trace s) ++
    map (λ i, u32 (Z.of_nat i)) (seq 0 (length (buffers_ s'))).
Proof.
  intros Hreq.
  pose proof (request_buffers_spec drv s) as H. rewrite Hreq in H.
  destruct H as (_ & _ & (t & Ht & _ & Hq) & Hsucc).
  destruct (Hsucc eq_refl) as (count & Hcount & _ & Hbuf & _).
  destruct (Hq eq_refl) as (count' & Hcount' & Hqt).
  rewrite Hcount in Hcount'. injection Hcount' as <-.
  rewrite Ht, qbuf_requests_app, Hqt, Hbuf, length_map, length_seq. done.
Qed.


End Allocation.

Section Initialize.
Import CameraCapture.
Implicit Types (s : Session) (drv : Driver) (t : list Request).

Local Opaque u32 i32.

(** initialize() on a session that is not initialised: result, requests
    made, and the state left on success. *)
Lemma initialize_spec drv s :
  initialized_ s = false →
  let '(ok, s') := initialize drv s in
  ok = initialize_accepts drv (width_ s) (height_ s) (pixel_format_ s)
                          (fps_ s) ∧
  initialized_ s' = ok ∧ running_ s' = running_ s ∧
  (∃ t, trace s' = trace s ++ t ∧ Forall (λ r, setup_request r = true) t) ∧
  (ok = true →
   fd_ s' = open_ drv ∧ open_ drv ≠ -1 ∧
   s_fmt drv (width_ s) (height_ s) (pixel_format_ s) =
     Some (width_ s, height_ s, pixel_format_ s, stride_ s') ∧
   ∃ count, reqbufs drv 4 = Some count ∧ 2 ≤ count ∧
     buffers_ s' = map (driver_buffer drv) (seq 0 (Z.to_nat count)) ∧
     mapped s' = mapped s ++ map region (buffers_ s') ∧
     qbuf_requests (trace s') =
       qbuf_requests (trace s) ++
       map (λ i, u32 (Z.of_nat i)) (seq 0 (Z.to_nat count))).
Proof.
  intros Hinit. unfold initialize, initialize_accepts. rewrite Hinit.
  cbv zeta. observe_session.
  destruct (open_ drv =? -1) eqn:Hopen.
  { cbn [negb andb]. observe_session. split_and!; try done.
    eexists. rewrite <- app_assoc. split; [reflexivity|].
    by repeat constructor. }
  destruct (querycap drv) as [caps|].
  2: { cbn [negb andb]. observe_session. split_and!; try done.
       eexists. rewrite <- !app_assoc. split; [reflexivity|].
       by repeat constructor. }
  destruct (Z.land caps V4L2_CAP_VIDEO_CAPTURE =? 0).
  { cbn [negb andb]. observe_session. split_and!; try done.
    eexists. rewrite <- !app_assoc. split; [reflexivity|].
    by repeat constructor. }
  destruct (Z.land caps V4L2_CAP_STREAMING =? 0).
  { cbn [negb andb]. observe_session. split_and!; try done.
    eexists. rewrite <- !app_assoc. split; [reflexivity|].
    by repeat constructor. }
  destruct (s_fmt drv (width_ s) (height_ s) (pixel_format_ s))
    as [[[[w h] pf] bpl]|] eqn:Hfmt.
  2: { cbn [negb andb]. observe_session. split_and!; try done.
       eexists. rewrite <- !app_assoc. split; [reflexivity|].
       by repeat constructor. }
  destruct (w =? width_ s) eqn:Hw; cbn [negb andb orb].
  2: { observe_session. split_and!; try done.
       eexists. rewrite <- !app_assoc. split; [reflexivity|].
       by repeat constructor. }
  destruct (h =? height_ s) eqn:Hh; cbn [negb andb orb].
  2: { observe_session. split_and!; try done.
       eexists. rewrite <- !app_assoc. split; [reflexivity|].
       by repeat constructor. }
  destruct (pf =? pixel_format_ s) eqn:Hpf; cbn [negb andb orb].
  2: { observe_session. split_and!; try done.
       eexists. rewrite <- !app_assoc. split; [reflexivity|].
       by repeat constructor. }
  apply Z.eqb_eq in Hw, Hh, Hpf. subst w h pf. observe_session.
  destruct (s_parm drv 1 (fps_ s)); cbn [negb andb orb].
  2: { observe_session. split_and!; try done.
       eexists. rewrite <- !app_assoc. split; [reflexivity|].
       by repeat constructor. }
  match goal with |- context [request_buffers drv ?s0] =>
    pose proof (request_buffers_spec drv s0) as Hreq; set (s1 := s0) in * end.
  assert (config s1 = set_stride bpl (set_fd (open_ drv) (config s)))
    as Hcfg1 by (subst s1; by observe_session).
  assert (mapped s1 = mapped s) as Hmp1 by (subst s1; by observe_session).
  assert (trace s1 = trace s ++
            [SysOpen (device_path_ s); VIDIOC_QUERYCAP;
             VIDIOC_S_FMT (width_ s) (height_ s) (pixel_format_ s);
             VIDIOC_S_PARM 1 (fps_ s)]) as Ht1
    by (subst s1; observe_session; by rewrite <- !app_assoc).
  clearbody s1.
  destruct (request_buffers drv s1) as [ok s2].
  destruct Hreq as (Hok & Hcfg2 & (t & Ht & Hsetup & Hq) & Hsucc).
  rewrite <- Hok.
  assert (config s2 = config (set_stride bpl (set_fd (open_ drv) s)))
    as Hcfg by (observe_session; by rewrite Hcfg2).
  apply config_fields in Hcfg
    as (_ & _ & _ & Hstride & _ & _ & _ & Hfd & Hrun & Hinit2).
  revert Hstride Hfd Hrun Hinit2. observe_session.
  rewrite Hinit. intros Hstride Hfd Hrun Hinit2.
  assert (∃ t', trace s2 = trace s ++ t' ∧
                Forall (λ r, setup_request r = true) t') as Htrace.
  { eexists. rewrite Ht, Ht1, <- app_assoc. split; [reflexivity|].
    apply Forall_app. split; [by repeat constructor|done]. }
  destruct ok; observe_session; split_and!; try done.
  intros _.
  destruct (Hsucc eq_refl) as (count & Hcount & Hge & Hbuf & Hmp).
  destruct (Hq eq_refl) as (count' & Hcount' & Hqt).
  rewrite Hcount in Hcount'. injection Hcount' as <-.
  split_and!.
  - done.
  - by apply Z.eqb_neq.
  - by rewrite Hstride.
  - exists count. split_and!; try done.
    + by rewrite Hmp, Hmp1.
    + rewrite Ht, Ht1, !qbuf_requests_app, Hqt. cbn [qbuf_requests omap].
      by rewrite app_nil_r.
Qed.

Lemma munmap_requests_app t1 t2 :
  munmap_requests (t1 ++ t2) = munmap_requests t1 ++ munmap_requests t2.
Proof. apply omap_app. Qed.

Lemma close_requests_app t1 t2 :
  close_requests (t1 ++ t2) = close_requests t1 ++ close_requests t2.
Proof. apply omap_app. Qed.

Lemma sleep_requests_app t1 t2 :
  sleep_requests (t1 ++ t2) = sleep_requests t1 ++ sleep_requests t2.
Proof. apply omap_app. Qed.

Lemma stream_requests_app t1 t2 :
  stream_requests (t1 ++ t2) = stream_requests t1 ++ stream_requests t2.
Proof. apply filter_app. Qed.

Lemma select_requests_app t1 t2 :
  select_requests (t1 ++ t2) = select_requests t1 ++ select_requests t2.
Proof. apply filter_app. Qed.

(** Setup requests are none of the teardown, streaming or capture
    requests. *)
Lemma setup_requests_only t :
  Forall (λ r, setup_request r = true) t →
  munmap_requests t = [] ∧ close_requests t = [] ∧ stream_requests t = [] ∧
  select_requests t = [] ∧ sleep_requests t = [] ∧ VIDIOC_DQBUF ∉ t.
Proof.
  induction 1 as [|r t Hr _ (IH1 & IH2 & IH3 & IH4 & IH5 & IH6)].
  { split_and!; try done. apply not_elem_of_nil. }
  assert (VIDIOC_DQBUF ∉ r :: t) as Hdq.
  { rewrite elem_of_cons. intros [<-|?]; done. }
  unfold stream_requests, select_requests in *.
  destruct r; try discriminate; cbn [munmap_requests close_requests
    sleep_requests omap]; rewrite ?filter_cons_False by (intros []; done);
    rewrite ?filter_cons_False by done; done.
Qed.

(** X16.  initialize() only sets up: whatever the driver answers and
    whether it succeeds or fails, it unmaps no region, closes no
    descriptor, neither starts nor stops streaming, and does not wait for
    or dequeue a frame. *)
Theorem initialize_only_sets_up drv s :
  ∃ t, trace (initialize drv s).2 = trace s ++ t ∧
       Forall (λ r, setup_request r = true) t ∧
       munmap_requests t = [] ∧ close_requests t = [] ∧
       stream_requests t = [] ∧ select_requests t = [] ∧
       VIDIOC_DQBUF ∉ t.
Proof.
  assert (∃ t, trace (initialize drv s).2 = trace s ++ t ∧
               Forall (λ r, setup_request r = true) t) as (t & Ht & Hsetup).
  { destruct (initialized_ s) eqn:Hinit.
    - unfold initialize. rewrite Hinit. exists []. by rewrite app_nil_r.
    - pose proof (initialize_spec drv s Hinit) as H.
      destruct (initialize drv s) as [ok s']. by destruct H as (_ & _ & _ & H & _). }
  exists t. split; [done|]. split; [done|].
  by destruct (setup_requests_only t Hsetup) as (? & ? & ? & ? & _ & ?).
Qed.

(** X17.  initialize() on a session not yet initialised succeeds exactly
    when: the device opens; VIDIOC_QUERYCAP answers with both the capture
    and the streaming capability; VIDIOC_S_FMT answers with the very
    width, height and pixel format asked for; VIDIOC_S_PARM is accepted;
    and the buffers can be allocated (at least 2 granted, each described,
    mapped and queued).  The session is marked initialised exactly then,
    and its running flag is never touched. *)
Theorem initialize_succeeds_iff drv s :
  initialized_ s = false →
  let '(ok, s') := initialize drv s in
  ok = initialize_accepts drv (width_ s) (height_ s) (pixel_format_ s)
                          (fps_ s) ∧
  initialized_ s' = ok ∧ running_ s' = running_ s.
Proof.
  intros Hinit. pose proof (initialize_spec drv s Hinit) as H.
  destruct (initialize drv s) as [ok s']. by destruct H as (? & ? & ? & _).
Qed.

(** X18.  After a successful initialize() the session holds the
    descriptor open() returned and the stride (bytesperline) the driver
    wrote back for the exact format; its pool mirrors the driver's buffers,
    its mapped regions are the ones it had plus one per slot, and every
    buffer has been queued to the device once, in index order. *)
Theorem initialize_success_state drv s s' :
  initialized_ s = false →
  initialize drv s = (true, s') →
  fd_ s' = open_ drv ∧ open_ drv ≠ -1 ∧
  s_fmt drv (width_ s) (height_ s) (pixel_format_ s) =
    Some (width_ s, height_ s, pixel_format_ s, stride_ s') ∧
  ∃ count, reqbufs drv 4 = Some count ∧ 2 ≤ count ∧
    buffers_ s' = map (driver_buffer drv) (seq 0 (Z.to_nat count)) ∧
    mapped s' = mapped s ++ map region (buffers_ s') ∧
    qbuf_requests (trace s') =
      qbuf_requests (trace s) ++
      map (λ i, u32 (Z.of_nat i)) (seq 0 (Z.to_nat count)).
Proof.
  intros Hinit Hrun. pose proof (initialize_spec drv s Hinit) as H.
  rewrite Hrun in H. destruct H as (_ & _ & _ & _ & H). by apply H.
Qed.

(** X19.  initialize() is idempotent: once it has returned true, calling
    it again, with whatever driver behind it, returns true at once, makes
    no request and leaves the session as it is. *)
Theorem initialize_is_idempotent drv drv' s s' :
  initialize drv s = (true, s') →
  initialize drv' s' = (true, s').
Proof.
  intros Hrun.
  assert (initialized_ s' = true) as Hinit'.
  { destruct (initialized_ s) eqn:Hinit.
    - unfold initialize in Hrun. rewrite Hinit in Hrun. by simplify_eq.
    - pose proof (initialize_spec drv s Hinit) as H. rewrite Hrun in H.
      by destruct H as (_ & ? & _). }
  unfold initialize. by rewrite Hinit'.
Qed.

(** X20.  start() does not stream a session it cannot initialise: if
    initialize() fails, start() returns with the session neither
    initialised nor running and has made no VIDIOC_STREAMON request. *)
Theorem start_does_not_stream_after_failed_setup drv streamon s :
  initialized_ s = false → running_ s = false →
  (initialize drv s).1 = false →
  let s' := start drv streamon s in
  s' = (initialize drv s).2 ∧
  initialized_ s' = false ∧ running_ s' = false ∧
  stream_requests (trace s') = stream_requests (trace s).
Proof.
  intros Hinit Hrun Hfail. unfold start. rewrite Hinit.
  pose proof (initialize_spec drv s Hinit) as H.
  destruct (initialize drv s) as [ok s']. simpl in Hfail. subst ok.
  destruct H as (_ & Hinit' & Hrun' & (t & Ht & Hsetup) & _).
  cbn [snd]. split_and!; try done; [congruence|].
  rewrite Ht, stream_requests_app.
  destruct (setup_requests_only t Hsetup) as (_ & _ & -> & _).
  by rewrite app_nil_r.
Qed.

(** X21.  start() on a stopped session leaves it running only if the
    session is initialised and the driver accepted VIDIOC_STREAMON, which
    is then the one streaming request start() made and the last request of
    all; a further start() does nothing. *)
Theorem start_streams_once drv streamon s :
  running_ s = false →
  let s' := start drv streamon s in
  running_ s' = true →
  initialized_ s' = true ∧ streamon = true ∧
  stream_requests (trace s') = stream_requests (trace s) ++ [VIDIOC_STREAMON] ∧
  last (trace s') = Some VIDIOC_STREAMON ∧
  ∀ drv' streamon', start drv' streamon' s' = s'.
Proof.
  intros Hrun. cbv zeta.
  assert (∃ ok s1, (if initialized_ s then (true, s) else initialize drv s)
                   = (ok, s1) ∧ running_ s1 = false ∧
                   (ok = true → initialized_ s1 = true) ∧
                   stream_requests (trace s1) = stream_requests (trace s))
    as (ok & s1 & Heq & Hrun1 & Hinit1 & Hstream1).
  { destruct (initialized_ s) eqn:Hinit.
    - by exists true, s.
    - pose proof (initialize_spec drv s Hinit) as H.
      destruct (initialize drv s) as [ok s1]. exists ok, s1.
      destruct H as (_ & Hinit' & Hrun' & (t & Ht & Hsetup) & _).
      split_and!; try done; [congruence..|].
      rewrite Ht, stream_requests_app.
      destruct (setup_requests_only t Hsetup) as (_ & _ & -> & _).
      by rewrite app_nil_r. }
  assert (start drv streamon s =
            if ok then
              if streamon then set_running true (emit VIDIOC_STREAMON s1)
              else report_error "Failed to start streaming"
                     (report_error "VIDIOC_STREAMON failed"
                        (emit VIDIOC_STREAMON s1))
            else s1) as ->.
  { unfold start, start_streaming. rewrite Heq.
    destruct ok; [|done]. rewrite Hrun1. by destruct streamon. }
  destruct ok; [|by rewrite Hrun1].
  destruct streamon; observe_session; [|by rewrite Hrun1].
  intros _. rewrite (Hinit1 eq_refl), stream_requests_app, Hstream1.
  split_and!; try done.
  - by rewrite last_snoc.
  - intros drv' streamon'. unfold start. observe_session.
    by rewrite (Hinit1 eq_refl).
Qed.

(** X22.  stop() always leaves the session not running, whether or not the
    driver accepts VIDIOC_STREAMOFF; it asks the driver to stop streaming
    exactly when the session was running, and a second stop() does
    nothing. *)
Theorem stop_is_idempotent streamoff streamoff' s :
  let s' := stop streamoff s in
  running_ s' = false ∧
  stream_requests (trace s') =
    stream_requests (trace s) ++
    (if running_ s then [VIDIOC_STREAMOFF] else []) ∧
  stop streamoff' s' = s'.
Proof.
  cbv zeta.
  assert (running_ (stop streamoff s) = false) as Hstopped.
  { unfold stop, stop_streaming. destruct (running_ s) eqn:Hrun; [|done].
    destruct streamoff; cbn [snd]; by observe_session. }
  split; [done|]. split.
  - unfold stop, stop_streaming. destruct (running_ s).
    + destruct streamoff; cbn [snd]; observe_session;
        rewrite ?stream_requests_app, <- ?app_assoc; reflexivity.
    + by rewrite app_nil_r.
  - unfold stop at 1. by rewrite Hstopped.
Qed.

End Initialize.

Section Teardown.
Import CameraCapture.
Implicit Types (s : Session) (drv : Driver) (t : list Request)
         (bs : list Buffer).

Local Opaque u32 i32.

Lemma filter_keeps_all {A} (P : A → Prop) `{∀ x, Decision (P x)} (l : list A) :
  (∀ x, P x) → filter P l = l.
Proof.
  intros HP. induction l as [|x l IH]; [done|].
  by rewrite filter_cons_True, IH.
Qed.

Lemma filter_keeps_all_in {A} (P : A → Prop) `{∀ x, Decision (P x)}
    (l : list A) :
  (∀ x, x ∈ l → P x) → filter P l = l.
Proof.
  induction l as [|x l IH]; intros HP; [done|].
  rewrite filter_cons_True by (apply HP; by left).
  f_equal. apply IH. intros y Hy. apply HP. by right.
Qed.

Lemma filter_drops_all {A} (P : A → Prop) `{∀ x, Decision (P x)} (l : list A) :
  (∀ x, x ∈ l → ¬ P x) → filter P l = [].
Proof.
  induction l as [|x l IH]; intros HP; [done|].
  rewrite filter_cons_False by (apply HP; by left).
  apply IH. intros y Hy. apply HP. by right.
Qed.

(** The loop of uninit_device() over the slots [bs]. *)
Lemma uninit_loop_spec bs : ∀ s,
  let s' := foldl uninit_buffer s bs in
  config s' = config s ∧ buffers_ s' = buffers_ s ∧
  mapped s' = filter (λ r, r ∉ map region (mapped_slots bs)) (mapped s) ∧
  ∃ t, trace s' = trace s ++ t ∧
       munmap_requests t = map region (mapped_slots bs) ∧
       close_requests t = map buf_dma_fd (exported_slots bs) ∧
       qbuf_requests t = [] ∧ stream_requests t = [].
Proof.
  unfold mapped_slots, exported_slots.
  induction bs as [|b bs IH]; intros s.
  { simpl. split_and!; try done.
    - symmetry. apply filter_keeps_all. intros r. apply not_elem_of_nil.
    - exists []. by rewrite app_nil_r. }
  cbn [foldl]. specialize (IH (uninit_buffer s b)). cbv zeta in IH.
  destruct IH as (Hcfg & Hbuf & Hmp & t & Ht & Hun & Hcl & Hq & Hst).
  rewrite Hcfg, Hbuf, Hmp, Ht. clear Hcfg Hbuf Hmp Ht.
  unfold uninit_buffer, sys_munmap. cbv zeta.
  destruct (buf_start b =? nullptr) eqn:Hstart;
    [apply Z.eqb_eq in Hstart|apply Z.eqb_neq in Hstart];
    (destruct (buf_dma_fd b =? -1) eqn:Hfd;
      [apply Z.eqb_eq in Hfd|apply Z.eqb_neq in Hfd]);
    observe_session;
    rewrite ?(filter_cons_True (λ b, buf_start b ≠ nullptr)) by done;
    rewrite ?(filter_cons_False (λ b, buf_start b ≠ nullptr))
      by (intros ?; done);
    rewrite ?(filter_cons_True (λ b, buf_dma_fd b ≠ -1)) by done;
    rewrite ?(filter_cons_False (λ b, buf_dma_fd b ≠ -1))
      by (intros ?; done);
    cbn [map];
    (split; [done|]); (split; [done|]); split.
  all: try (rewrite <- ?app_assoc; eexists; split; [reflexivity|];
            rewrite ?munmap_requests_app, ?close_requests_app,
              ?qbuf_requests_app, ?stream_requests_app, Hun, Hcl, Hq, Hst;
            done).
  all: try done.
  - rewrite list_filter_filter. apply list_filter_iff. intros r.
    rewrite elem_of_cons. unfold region at 2. tauto.
  - rewrite list_filter_filter. apply list_filter_iff. intros r.
    rewrite elem_of_cons. unfold region at 2. tauto.
Qed.

(** X23.  uninit_device() unmaps the region of every slot whose start is
    not null, in index order, closes every exported descriptor, and clears
    the pool; the regions of the unmapped slots are no longer mapped, and
    the other data members are left alone.  It is idempotent: on an empty
    pool it does nothing at all. *)
Theorem uninit_device_unmaps_pool s :
  let s' := uninit_device s in
  buffers_ s' = [] ∧ config s' = config s ∧
  mapped s' =
    filter (λ r, r ∉ map region (mapped_slots (buffers_ s))) (mapped s) ∧
  munmap_requests (trace s') =
    munmap_requests (trace s) ++ map region (mapped_slots (buffers_ s)) ∧
  close_requests (trace s') =
    close_requests (trace s) ++ map buf_dma_fd (exported_slots (buffers_ s)) ∧
  uninit_device s' = s'.
Proof.
  cbv zeta. unfold uninit_device at 1 2 3 4 5.
  pose proof (uninit_loop_spec (buffers_ s) s) as H. cbv zeta in H.
  destruct H as (Hcfg & Hbuf & Hmp & t & Ht & Hun & Hcl & _).
  observe_session. rewrite Hcfg, Hmp, Ht.
  rewrite munmap_requests_app, close_requests_app, Hun, Hcl.
  split_and!; done.
Qed.

(** X24.  Set-up followed by tear-down leaks nothing: a session that
    initialised successfully (from a state with nothing mapped, and with an
    mmap that never returns a null address for a region the driver
    describes) has, after its destructor, no
    region mapped, an empty pool and no descriptor; the destructor unmaps
    each slot once, closes each exported descriptor and then the device,
    and makes no streaming request when the session was not running. *)
Theorem initialize_then_destroy_leaks_nothing drv streamoff s s' :
  initialized_ s = false → running_ s = false → mapped s = [] →
  (∀ i len offset, querybuf drv i = Some (len, offset) →
                   mmap drv len offset ≠ nullptr) →
  initialize drv s = (true, s') →
  let s'' := destroy streamoff s' in
  mapped s'' = [] ∧ buffers_ s'' = [] ∧ fd_ s'' = -1 ∧
  munmap_requests (trace s'') =
    munmap_requests (trace s) ++ map region (buffers_ s') ∧
  close_requests (trace s'') =
    close_requests (trace s) ++
    map buf_dma_fd (exported_slots (buffers_ s')) ++ [open_ drv] ∧
  stream_requests (trace s'') = stream_requests (trace s).
Proof.
  intros Hinit Hrun Hmapped Hmmap Hok.
  pose proof (initialize_spec drv s Hinit) as H. rewrite Hok in H.
  destruct H as (Hacc & Hinit' & Hrun' & (t & Ht & Hsetup) & Hsucc).
  destruct (Hsucc eq_refl)
    as (Hfd & Hopen & _ & count & Hcount & _ & Hbuf & Hmp & _).
  destruct (setup_requests_only t Hsetup) as (Hun0 & Hcl0 & Hst0 & _).
  assert (mapped_slots (buffers_ s') = buffers_ s') as Hslots.
  { unfold mapped_slots. apply filter_keeps_all_in. intros b Hb.
    rewrite Hbuf in Hb. apply list_elem_of_In, in_map_iff in Hb
      as (i & <- & Hi).
    unfold initialize_accepts in Hacc. rewrite Hcount in Hacc.
    symmetry in Hacc. apply andb_true_iff in Hacc as [_ Hacc].
    apply andb_true_iff in Hacc as [Hacc _].
    apply andb_true_iff in Hacc as [_ Hacc].
    rewrite forallb_forall in Hacc. apply Hacc in Hi.
    unfold buffer_mappable in Hi. unfold driver_buffer.
    destruct (querybuf drv (u32 (Z.of_nat i))) as [[len offset]|] eqn:Hquery;
      [|done].
    by apply (Hmmap _ _ _ Hquery). }
  cbv zeta. unfold destroy, stop. rewrite Hrun', Hrun, Hinit'.
  pose proof (uninit_loop_spec (buffers_ s') s') as H. cbv zeta in H.
  destruct H as (Hcfg & _ & Hmp' & t' & Ht' & Hun & Hcl & _ & Hst).
  assert (fd_ (uninit_device s') = open_ drv) as Hfd'.
  { unfold uninit_device. observe_session.
    apply config_fields in Hcfg as (_ & _ & _ & _ & _ & _ & _ & -> & _).
    done. }
  rewrite Hfd'. apply Z.eqb_neq in Hopen. rewrite Hopen.
  unfold uninit_device. observe_session.
  rewrite Hmp', Ht', Ht, Hslots, Hmp, Hmapped in *.
  rewrite !munmap_requests_app, !close_requests_app, !stream_requests_app.
  rewrite Hun0, Hcl0, Hst0, Hun, Hcl, Hst, !app_nil_r. cbn [app].
  split_and!; try done.
  - apply filter_drops_all. intros r Hr. by intros [].
  - by rewrite <- app_assoc.
Qed.

End Teardown.

Section Capture.
Import CameraCapture.
Implicit Types (s : Session) (frame : CameraFrame) (t : list Request).

Lemma i32_small z : 0 ≤ z < 2 ^ 31 → i32 z = z.
Proof. intros Hz. unfold i32. rewrite Z.mod_small; lia. Qed.

(** get_frame() by cases on the answers of select() and VIDIOC_DQBUF. *)
Lemma get_frame_cases sel dq frame s :
  let '(ok, frame', s') := get_frame sel dq frame s in
  config s' = config s ∧ buffers_ s' = buffers_ s ∧ mapped s' = mapped s ∧
  (∃ t, trace s' = trace s ++ SysSelect :: t ∧
        qbuf_requests t = [] ∧ select_requests t = [] ∧
        sleep_requests t = [] ∧ (length (reports t) ≤ 1)%nat) ∧
  if ok then
    ∃ buf, sel = SelectReady ∧ dq = DqbufDone buf ∧
           u32 (index buf) < Z.of_nat (length (buffers_ s)) ∧
           return_buffer frame' = Some (u32 (index buf)) ∧
           buf_index frame' = i32 (u32 (index buf))
  else frame' = frame.
Proof.
  unfold get_frame. cbv zeta.
  destruct sel as [errno| |];
    [destruct (errno =? EINTR) | |
     destruct dq as [errno|buf];
       [destruct (errno =? EAGAIN) |
        destruct (Z.of_nat (length (buffers_ (emit VIDIOC_DQBUF
                                                (emit SysSelect s))))
                  <=? u32 (index buf)) eqn:Hle;
        revert Hle; observe_session; intros Hle]];
    observe_session; split_and!; try done;
    try (eexists; rewrite <- ?app_assoc; (split; [reflexivity|]);
         split_and!; try done; simpl; lia).
Qed.

(** X25.  A get_frame() that returns false has changed nothing but the
    trace: the caller's frame, the pool, the mappings and the other data
    members are as before; it made no enqueue request and reported at most
    one error. *)
Theorem get_frame_failure_changes_nothing sel dq frame s frame' s' :
  get_frame sel dq frame s = (false, frame', s') →
  frame' = frame ∧ s' = set_trace (trace s') s ∧
  ∃ t, trace s' = trace s ++ t ∧ qbuf_requests t = [] ∧
       (length (reports t) ≤ 1)%nat.
Proof.
  intros Hget. pose proof (get_frame_cases sel dq frame s) as H.
  rewrite Hget in H.
  destruct H as (Hcfg & Hbuf & Hmp & (t & Ht & Hq & _ & _ & Hrep) & ->).
  split; [done|]. split.
  - apply session_eq; by observe_session.
  - exists (SysSelect :: t). split_and!; done.
Qed.

(** The release closure of a frame gives back that frame's buffer:
    for a pool of at most 2^31 slots, calling return_buffer on the frame
    get_frame() produced for the dequeued index asks the device to enqueue
    exactly that index, and touches neither pool nor mappings. *)
Lemma release_after_get_frame buf frame0 frame s s1 accepted :
  Z.of_nat (length (buffers_ s)) ≤ 2 ^ 31 →
  get_frame SelectReady (DqbufDone buf) frame0 s = (true, frame, s1) →
  let s2 := call_return_buffer frame accepted s1 in
  buf_index frame = u32 (index buf) ∧
  qbuf_requests (trace s2) = qbuf_requests (trace s) ++ [u32 (index buf)] ∧
  buffers_ s2 = buffers_ s ∧ mapped s2 = mapped s ∧
  running_ s2 = running_ s ∧
  select_requests (trace s2) = select_requests (trace s) ++ [SysSelect] ∧
  sleep_requests (trace s2) = sleep_requests (trace s).
Proof.
  intros Hpool Hget.
  pose proof (get_frame_cases SelectReady (DqbufDone buf) frame0 s) as H.
  rewrite Hget in H.
  destruct H as (Hcfg & Hbuf & Hmp & (t & Ht & Hq & Hsel & Hsl & _) &
                 buf' & _ & [= <-] & Hlt & Hclosure & Hidx).
  apply config_fields in Hcfg as (_ & _ & _ & _ & _ & _ & _ & _ & Hrun & _).
  pose proof (u32_range (index buf)) as [Hnn _].
  rewrite i32_small in Hidx by lia.
  cbv zeta. unfold call_return_buffer. rewrite Hclosure.
  rewrite i32_small by lia.
  unfold return_buffer_to_queue. rewrite Hbuf.
  assert ((u32 (index buf) <? 0)
          || (Z.of_nat (length (buffers_ s)) <=? u32 (index buf)) = false)
    as -> by (apply orb_false_iff; split; lia).
  rewrite (u32_small (u32 (index buf))) by lia.
  assert (qbuf_requests (trace s1) = qbuf_requests (trace s)) as Hq1.
  { rewrite Ht, qbuf_requests_app.
    change (qbuf_requests (SysSelect :: t)) with (qbuf_requests t).
    by rewrite Hq, app_nil_r. }
  assert (select_requests (trace s1) =
            select_requests (trace s) ++ [SysSelect]) as Hsel1.
  { rewrite Ht, select_requests_app. unfold select_requests at 2.
    rewrite filter_cons_True by done. fold (select_requests t).
    by rewrite Hsel. }
  assert (sleep_requests (trace s1) = sleep_requests (trace s)) as Hsl1.
  { rewrite Ht, sleep_requests_app.
    change (sleep_requests (SysSelect :: t)) with (sleep_requests t).
    by rewrite Hsl, app_nil_r. }
  destruct accepted; cbn [snd]; observe_session;
    rewrite !qbuf_requests_app, ?select_requests_app, ?sleep_requests_app,
      Hq1, Hsel1, Hsl1;
    cbn [qbuf_requests sleep_requests omap];
    unfold select_requests at 2;
    rewrite ?filter_cons_False, ?filter_nil by done;
    unfold select_requests at 2;
    rewrite ?filter_cons_False, ?filter_nil by done;
    rewrite ?app_nil_r; done.
Qed.

(** X26.  The release closure of a frame gives back that frame's buffer:
    for a pool of at most 2^31 slots, calling return_buffer on the frame
    get_frame() produced for the dequeued index asks the device to enqueue
    exactly that index, and touches neither pool nor mappings. *)
Theorem frame_release_requeues_its_buffer buf frame0 frame s s1 accepted :
  Z.of_nat (length (buffers_ s)) ≤ 2 ^ 31 →
  get_frame SelectReady (DqbufDone buf) frame0 s = (true, frame, s1) →
  let s2 := call_return_buffer frame accepted s1 in
  buf_index frame = u32 (index buf) ∧
  qbuf_requests (trace s2) = qbuf_requests (trace s) ++ [u32 (index buf)] ∧
  buffers_ s2 = buffers_ s ∧ mapped s2 = mapped s.
Proof.
  intros Hpool Hget.
  destruct (release_after_get_frame buf frame0 frame s s1 accepted Hpool Hget)
    as (? & ? & ? & ? & _).
  done.
Qed.

(** X27.  With a sink that gives each buffer back as soon as it has seen
    the frame (the sink of the test program), a run of the capture loop
    re-queues every delivered buffer exactly once and in the order of
    delivery, and nothing else, for a pool of at most 2^31 slots. *)
Theorem releasing_sink_requeues_each_frame_once
    (accepted : CameraFrame → bool) answers s :
  Z.of_nat (length (buffers_ s)) ≤ 2 ^ 31 →
  qbuf_requests
    (trace (capture_thread (Some (release_sink accepted)) answers s)) =
  qbuf_requests (trace s) ++
  map buf_index (delivered_frames (Some (release_sink accepted)) answers s).
Proof.
  revert s. induction answers as [|[sel dq] answers IH]; intros s Hpool.
  { simpl. by rewrite app_nil_r. }
  cbn [capture_thread delivered_frames].
  destruct (running_ s); [|simpl; by rewrite app_nil_r].
  pose proof (get_frame_cases sel dq blank_frame s) as Hcases.
  destruct (get_frame sel dq blank_frame s) as [[ok frame] s1] eqn:Hget.
  destruct Hcases as (Hcfg & Hbuf & Hmp & (t & Ht & Hq & _) & Hok).
  destruct ok;
    [rewrite !(capture_iteration_delivers _ _ _ _ _ _ Hget)
    |rewrite !(capture_iteration_retry _ _ _ _ _ _ Hget)].
  - destruct Hok as (buf & -> & -> & _).
    destruct (release_after_get_frame buf blank_frame frame s s1
                (accepted frame) Hpool Hget)
      as (Hidx & Hqueue & Hbuf2 & _).
    change (release_sink accepted frame s1)
      with (call_return_buffer frame (accepted frame) s1).
    rewrite IH by (by rewrite Hbuf2).
    rewrite Hqueue. cbn [app map]. rewrite Hidx, <- app_assoc. done.
  - rewrite IH by (observe_session; by rewrite Hbuf).
    observe_session. rewrite Ht, !qbuf_requests_app.
    change (qbuf_requests (SysSelect :: t)) with (qbuf_requests t).
    rewrite Hq. cbn [qbuf_requests omap app]. by rewrite !app_nil_r.
Qed.

(** X28.  The capture loop does not give up on errors: as long as the
    running flag stays set (the sink leaves it alone), every recorded pass
    is executed, each pass waits for the device once, and each pass that
    delivered no frame (timeout, interrupted wait, failed or invalid
    dequeue) is followed by a sleep of 5 ms. *)
Theorem capture_loop_retries_after_errors
    (callback : option FrameCallback) answers s :
  (∀ cb frame s0, callback = Some cb →
     running_ (cb frame s0) = running_ s0 ∧
     select_requests (trace (cb frame s0)) = select_requests (trace s0) ∧
     sleep_requests (trace (cb frame s0)) = sleep_requests (trace s0)) →
  running_ s = true →
  let s' := capture_thread callback answers s in
  running_ s' = true ∧
  select_requests (trace s') =
    select_requests (trace s) ++ repeat SysSelect (length answers) ∧
  ∃ retries,
    sleep_requests (trace s') = sleep_requests (trace s) ++ repeat 5 retries ∧
    (retries + length (delivered_frames callback answers s))%nat
      = length answers.
Proof.
  intros Hsink. revert s. cbv zeta.
  induction answers as [|[sel dq] answers IH]; intros s Hrun.
  { simpl. rewrite app_nil_r. split_and!; try done.
    exists 0%nat. by rewrite app_nil_r. }
  cbn [capture_thread delivered_frames]. rewrite Hrun.
  pose proof (get_frame_cases sel dq blank_frame s) as Hcases.
  destruct (get_frame sel dq blank_frame s) as [[ok frame] s1] eqn:Hget.
  destruct Hcases as (Hcfg & _ & _ & (t & Ht & _ & Hsel & Hsl & _) & _).
  assert (capture_iteration callback sel dq s =
            if ok then match callback with
                       | Some cb => cb frame s1
                       | None => s1
                       end
            else emit (SysSleep 5) s1) as ->.
  { destruct ok;
      [apply (capture_iteration_delivers _ _ _ _ _ _ Hget)
      |apply (capture_iteration_retry _ _ _ _ _ _ Hget)]. }
  apply config_fields in Hcfg as (_ & _ & _ & _ & _ & _ & _ & _ & Hrun1 & _).
  assert (select_requests (trace s1) =
            select_requests (trace s) ++ [SysSelect]) as Hsel1.
  { rewrite Ht, select_requests_app. unfold select_requests at 2.
    rewrite filter_cons_True by done. fold (select_requests t).
    by rewrite Hsel. }
  assert (sleep_requests (trace s1) = sleep_requests (trace s)) as Hsl1.
  { rewrite Ht, sleep_requests_app.
    change (sleep_requests (SysSelect :: t)) with (sleep_requests t).
    by rewrite Hsl, app_nil_r. }
  match goal with |- context [capture_thread callback answers ?s0] =>
    set (s2 := s0) in *; specialize (IH s2) end.
  assert (running_ s2 = true ∧
          select_requests (trace s2) =
            select_requests (trace s) ++ [SysSelect] ∧
          sleep_requests (trace s2) =
            sleep_requests (trace s) ++ (if ok then [] else [5]))
    as (Hrun2 & Hsel2 & Hsl2).
  { subst s2. destruct ok.
    - destruct callback as [cb|].
      + destruct (Hsink cb frame s1 eq_refl) as (-> & -> & ->).
        rewrite app_nil_r. split_and!; congruence.
      + rewrite app_nil_r. split_and!; congruence.
    - observe_session. rewrite select_requests_app, sleep_requests_app.
      rewrite Hsel1, Hsl1.
      change (select_requests [SysSleep 5]) with (@nil Request).
      rewrite app_nil_r. split_and!; try done. congruence. }
  clearbody s2.
  destruct (IH Hrun2) as (Hrun' & Hsel' & retries & Hsl' & Hcount).
  split; [done|]. split.
  - rewrite Hsel', Hsel2, <- app_assoc. done.
  - destruct ok.
    + exists retries. rewrite Hsl', Hsl2, app_nil_r. split; [done|].
      cbn [app length]. lia.
    + exists (S retries). rewrite Hsl', Hsl2, <- app_assoc. split; [done|].
      cbn [app length]. lia.
Qed.

End Capture.

(* ===================================================================== *)
(** ** Properties of the consumer *)
(* ===================================================================== *)

Section Consumer.
Import ThreadSafeQueue CameraCapture EncoderStreamer.
Implicit Types (a : Answers) (frame : CameraFrame) (e : Encoder)
         (cam : Session).

(** return_buffer_to_queue() by cases on the range check. *)
Lemma release_checks_range index accepted cam :
  let '(r, cam') := return_buffer_to_queue index accepted cam in
  buffers_ cam' = buffers_ cam ∧ mapped cam' = mapped cam ∧
  if bool_decide (0 ≤ index < Z.of_nat (length (buffers_ cam)))
  then r = accepted ∧
       qbuf_requests (trace cam') = qbuf_requests (trace cam) ++ [u32 index]
  else r = false ∧ cam' = cam.
Proof.
  unfold return_buffer_to_queue.
  case_bool_decide as Hrange.
  - assert ((index <? 0) || (Z.of_nat (length (buffers_ cam)) <=? index)
            = false) as -> by (apply orb_false_iff; split; lia).
    destruct accepted; observe_session; rewrite !qbuf_requests_app;
      cbn [qbuf_requests omap]; rewrite ?app_nil_r; done.
  - assert ((index <? 0) || (Z.of_nat (length (buffers_ cam)) <=? index)
            = true) as -> by (apply orb_true_iff; lia).
    done.
Qed.

(** The loop body by cases. *)
Lemma encode_popped_spec a frame e cam :
  let '(e', cam') := encode_popped a frame e cam in
  cam' = call_return_buffer frame (requeued a) cam ∧
  input_queue_ e' = input_queue_ e ∧
  (pts_ e' = pts_ e ∨ pts_ e' = pts_ e + 1).
Proof.
  unfold encode_popped, give_back. destruct e as [rgb sws ctx pts q log].
  cbn [rgb_frame_ sws_frame_ sws_ctx_ pts_ input_queue_].
  destruct rgb, (rgb_buffer a), (mat_type a =? CV_8UC3),
    (mat_type a =? CV_8UC1), (sws_context a), sws, (sws_buffer a),
    (encoded a); cbn; auto.
Qed.

(** X29.  The encoding loop gives every frame it pops back to the camera
    exactly once, on every path through its body: whether the conversion
    frames can be allocated, the processed image has a supported type, the
    conversion context exists and the encoder accepts the frame or not, the
    camera session after the pass is the session after one call of the
    frame's return_buffer.  The input queue is not touched by the body, and
    pts_ advances by one or not at all. *)
Theorem encoding_body_releases_exactly_once a frame e cam :
  let '(e', cam') := encode_popped a frame e cam in
  cam' = call_return_buffer frame (requeued a) cam ∧
  input_queue_ e' = input_queue_ e ∧
  (pts_ e' = pts_ e ∨ pts_ e' = pts_ e + 1).
Proof. apply encode_popped_spec. Qed.

Lemma push_frames_open frames : ∀ e,
  terminated_ (input_queue_ e) = false → max_size_ (input_queue_ e) = 0%nat →
  ∃ e1, push_frames frames e = Some e1 ∧
        input_queue_ e1 =
          set_queue (queue_ (input_queue_ e) ++ frames) (input_queue_ e).
Proof.
  induction frames as [|frame frames IH]; intros e Hterm Hmax.
  { exists e. split; [done|]. rewrite app_nil_r. by destruct (input_queue_ e). }
  cbn [push_frames]. unfold push_frame.
  rewrite push_room by (done || by left).
  destruct (IH (set_input_queue
                  (set_queue (queue_ (input_queue_ e) ++ [frame])
                             (input_queue_ e)) e))
    as (e1 & Hpush & Hq); [done..|].
  exists e1. split; [done|]. rewrite Hq. destruct e. cbn.
  by rewrite <- app_assoc.
Qed.

Lemma encoding_passes_drain frames : ∀ passes e cam,
  queue_ (input_queue_ e) = frames →
  length passes = length frames →
  Forall (λ f, ∃ c, return_buffer f = Some c ∧
                    0 ≤ i32 c < Z.of_nat (length (buffers_ cam))) frames →
  ∃ e2 cam',
    encoding_passes passes e cam = Some (e2, cam') ∧
    qbuf_requests (trace cam') =
      qbuf_requests (trace cam) ++ map released_index frames ∧
    queue_ (input_queue_ e2) = [] ∧ buffers_ cam' = buffers_ cam ∧
    mapped cam' = mapped cam.
Proof.
  induction frames as [|frame frames IH]; intros passes e cam Hq Hlen Hok.
  { destruct passes; [|done]. exists e, cam. by rewrite app_nil_r. }
  destruct passes as [|[a env] passes]; [done|].
  apply Forall_cons in Hok as [(c & Hc & Hrange) Hok].
  cbn [encoding_passes]. unfold encoding_pass.
  rewrite (pop_nonempty _ _ _ _ frame frames Hq).
  pose proof (encode_popped_spec a frame
                (set_input_queue (set_queue frames (input_queue_ e)) e) cam)
    as Hbody.
  destruct (encode_popped a frame _ cam) as [e1 cam1].
  destruct Hbody as (-> & Hq1 & _).
  assert (buffers_ (call_return_buffer frame (requeued a) cam) = buffers_ cam
          ∧ mapped (call_return_buffer frame (requeued a) cam) = mapped cam
          ∧ qbuf_requests (trace (call_return_buffer frame (requeued a) cam))
            = qbuf_requests (trace cam) ++ [released_index frame])
    as (Hbuf & Hmp & Hqueue).
  { unfold call_return_buffer, released_index. rewrite Hc.
    pose proof (release_checks_range (i32 c) (requeued a) cam) as H.
    destruct (return_buffer_to_queue (i32 c) (requeued a) cam) as [r cam1].
    destruct H as (? & ? & H). rewrite bool_decide_eq_true_2 in H by done.
    cbn [snd]. by destruct H. }
  destruct (IH passes e1 (call_return_buffer frame (requeued a) cam))
    as (e2 & cam' & Hrun & Hq' & Hempty & Hbuf' & Hmp');
    [by rewrite Hq1|by injection Hlen|by rewrite Hbuf|].
  exists e2, cam'. split; [done|].
  rewrite Hq', Hqueue, Hbuf', Hbuf, Hmp', Hmp, <- app_assoc. done.
Qed.

(** X30.  From capture to release through the hand-off queue: frames
    pushed by push_frame into the encoder's open, unbounded input queue are
    all accepted without waiting, and the following passes of the encoding
    loop pop them in the same order and give each buffer back once, in
    that order, whatever FFmpeg answers; the queue ends empty and the pool
    is untouched. *)
Theorem pushed_frames_are_released_in_order frames passes e cam :
  terminated_ (input_queue_ e) = false →
  max_size_ (input_queue_ e) = 0%nat →
  queue_ (input_queue_ e) = [] →
  length passes = length frames →
  Forall (λ f, ∃ c, return_buffer f = Some c ∧
                    0 ≤ i32 c < Z.of_nat (length (buffers_ cam))) frames →
  ∃ e1 e2 cam',
    push_frames frames e = Some e1 ∧
    encoding_passes passes e1 cam = Some (e2, cam') ∧
    qbuf_requests (trace cam') =
      qbuf_requests (trace cam) ++ map released_index frames ∧
    queue_ (input_queue_ e2) = [] ∧ buffers_ cam' = buffers_ cam.
Proof.
  intros Hterm Hmax Hempty Hlen Hok.
  destruct (push_frames_open frames e Hterm Hmax) as (e1 & Hpush & Hq).
  destruct (encoding_passes_drain frames passes e1 cam)
    as (e2 & cam' & Hrun & Hqueue & Hq2 & Hbuf & _); [|done..|].
  { rewrite Hq, Hempty. done. }
  by exists e1, e2, cam'.
Qed.

End Consumer.

(** *** The session properties on the camera of the examples *)

Lemma allocated_pool_matches_driver_witness :
  let s := CameraCapture.set_fd 3 CameraCapture.video0 in
  let s' := (CameraCapture.request_buffers CameraCapture.good_driver s).2 in
  CameraCapture.request_buffers CameraCapture.good_driver s = (true, s') ∧
  ∃ count, CameraCapture.reqbufs CameraCapture.good_driver 4 = Some count ∧
    2 ≤ count ∧
    CameraCapture.buffers_ s' =
      map (CameraCapture.driver_buffer CameraCapture.good_driver)
          (seq 0 (Z.to_nat count)) ∧
    CameraCapture.mapped s' =
      CameraCapture.mapped s ++
      map CameraCapture.region (CameraCapture.buffers_ s') ∧
    Forall (λ b, CameraCapture.buf_start b ≠ CameraCapture.MAP_FAILED)
           (CameraCapture.buffers_ s').
Proof.
  intros s s'.
  assert (CameraCapture.request_buffers CameraCapture.good_driver s = (true, s'))
    as Hreq by (vm_compute; reflexivity).
  split; [exact Hreq|].
  exact (allocated_pool_matches_driver CameraCapture.good_driver s s' Hreq).
Defined.

Lemma allocated_buffers_are_queued_in_order_witness :
  let s := CameraCapture.set_fd 3 CameraCapture.video0 in
  let s' := (CameraCapture.request_buffers CameraCapture.good_driver s).2 in
  CameraCapture.request_buffers CameraCapture.good_driver s = (true, s') ∧
  CameraCapture.qbuf_requests (CameraCapture.trace s') =
    CameraCapture.qbuf_requests (CameraCapture.trace s) ++
    map (λ i, CameraCapture.u32 (Z.of_nat i))
        (seq 0 (length (CameraCapture.buffers_ s'))).
Proof.
  intros s s'.
  assert (CameraCapture.request_buffers CameraCapture.good_driver s = (true, s'))
    as Hreq by (vm_compute; reflexivity).
  split; [exact Hreq|].
  exact (allocated_buffers_are_queued_in_order
           CameraCapture.good_driver s s' Hreq).
Defined.

Lemma initialize_succeeds_iff_witness :
  CameraCapture.initialized_ CameraCapture.video0 = false ∧
  let '(ok, s') :=
    CameraCapture.initialize CameraCapture.good_driver CameraCapture.video0 in
  ok = CameraCapture.initialize_accepts CameraCapture.good_driver
         (CameraCapture.width_ CameraCapture.video0)
         (CameraCapture.height_ CameraCapture.video0)
         (CameraCapture.pixel_format_ CameraCapture.video0)
         (CameraCapture.fps_ CameraCapture.video0) ∧
  CameraCapture.initialized_ s' = ok ∧
  CameraCapture.running_ s' = CameraCapture.running_ CameraCapture.video0.
Proof.
  split; [reflexivity|].
  apply (initialize_succeeds_iff CameraCapture.good_driver
                                 CameraCapture.video0).
  reflexivity.
Defined.

Lemma initialize_success_state_witness :
  CameraCapture.initialized_ CameraCapture.video0 = false ∧
  CameraCapture.initialize CameraCapture.good_driver CameraCapture.video0
    = (true, CameraCapture.video0_ready) ∧
  CameraCapture.fd_ CameraCapture.video0_ready = 3 ∧
  CameraCapture.stride_ CameraCapture.video0_ready = 1280.
Proof.
  assert (CameraCapture.initialize CameraCapture.good_driver
            CameraCapture.video0 = (true, CameraCapture.video0_ready))
    as Hok by (vm_compute; reflexivity).
  split; [reflexivity|]. split; [exact Hok|].
  destruct (initialize_success_state CameraCapture.good_driver
              CameraCapture.video0 CameraCapture.video0_ready eq_refl Hok)
    as (Hfd & _ & Hfmt & _).
  split; [exact Hfd|]. vm_compute. reflexivity.
Defined.

Lemma initialize_is_idempotent_witness :
  CameraCapture.initialize CameraCapture.good_driver CameraCapture.video0
    = (true, CameraCapture.video0_ready) ∧
  CameraCapture.initialize CameraCapture.fixed_rate_driver
                           CameraCapture.video0_ready
    = (true, CameraCapture.video0_ready).
Proof.
  assert (CameraCapture.initialize CameraCapture.good_driver
            CameraCapture.video0 = (true, CameraCapture.video0_ready))
    as Hok by (vm_compute; reflexivity).
  split; [exact Hok|].
  exact (initialize_is_idempotent CameraCapture.good_driver
           CameraCapture.fixed_rate_driver CameraCapture.video0
           CameraCapture.video0_ready Hok).
Defined.

Lemma start_does_not_stream_after_failed_setup_witness :
  let s := CameraCapture.video0 in
  let s' := CameraCapture.start CameraCapture.fixed_rate_driver true s in
  (CameraCapture.initialize CameraCapture.fixed_rate_driver s).1 = false ∧
  CameraCapture.initialized_ s' = false ∧
  CameraCapture.running_ s' = false ∧
  CameraCapture.stream_requests (CameraCapture.trace s') = [].
Proof.
  intros s s'.
  assert ((CameraCapture.initialize CameraCapture.fixed_rate_driver s).1
          = false) as Hfail by (vm_compute; reflexivity).
  split; [exact Hfail|].
  destruct (start_does_not_stream_after_failed_setup
              CameraCapture.fixed_rate_driver true s eq_refl eq_refl Hfail)
    as (_ & Hinit & Hrun & Hstream).
  split; [exact Hinit|]. split; [exact Hrun|]. exact Hstream.
Defined.

Lemma start_streams_once_witness :
  let s := CameraCapture.video0 in
  let s' := CameraCapture.start CameraCapture.good_driver true s in
  CameraCapture.running_ s = false ∧ CameraCapture.running_ s' = true ∧
  CameraCapture.initialized_ s' = true ∧
  last (CameraCapture.trace s') = Some CameraCapture.VIDIOC_STREAMON ∧
  CameraCapture.start CameraCapture.fixed_rate_driver false s' = s'.
Proof.
  intros s s'.
  assert (CameraCapture.running_ s' = true) as Hrun
      by (vm_compute; reflexivity).
  split; [reflexivity|]. split; [exact Hrun|].
  destruct (start_streams_once CameraCapture.good_driver true s eq_refl Hrun)
    as (Hinit & _ & _ & Hlast & Hagain).
  split; [exact Hinit|]. split; [exact Hlast|].
  exact (Hagain CameraCapture.fixed_rate_driver false).
Defined.

Lemma initialize_then_destroy_leaks_nothing_witness :
  let s' := CameraCapture.video0_ready in
  let s'' := CameraCapture.destroy true s' in
  CameraCapture.initialize CameraCapture.good_driver CameraCapture.video0
    = (true, s') ∧
  length (CameraCapture.mapped s') = 4%nat ∧
  CameraCapture.mapped s'' = [] ∧ CameraCapture.buffers_ s'' = [] ∧
  CameraCapture.fd_ s'' = -1.
Proof.
  intros s' s''.
  assert (CameraCapture.initialize CameraCapture.good_driver
            CameraCapture.video0 = (true, s'))
    as Hok by (vm_compute; reflexivity).
  split; [exact Hok|]. split; [vm_compute; reflexivity|].
  assert (∀ i len offset,
            CameraCapture.querybuf CameraCapture.good_driver i
              = Some (len, offset) →
            CameraCapture.mmap CameraCapture.good_driver len offset
              ≠ CameraCapture.nullptr) as Hmmap.
  { intros i len offset [= <- <-]. unfold CameraCapture.nullptr.
    cbn [CameraCapture.mmap CameraCapture.good_driver]. lia. }
  destruct (initialize_then_destroy_leaks_nothing CameraCapture.good_driver
              true CameraCapture.video0 s' eq_refl eq_refl eq_refl Hmmap Hok)
    as (Hmp & Hbuf & Hfd & _).
  split; [exact Hmp|]. split; [exact Hbuf|]. exact Hfd.
Defined.

Lemma get_frame_failure_changes_nothing_witness :
  let s := CameraCapture.video0_ready in
  let r := CameraCapture.get_frame CameraCapture.SelectTimeout
             (CameraCapture.DqbufError 0) CameraCapture.blank_frame s in
  r = (false, CameraCapture.blank_frame, r.2) ∧
  r.2 = CameraCapture.set_trace (CameraCapture.trace r.2) s ∧
  CameraCapture.reports (CameraCapture.trace r.2) = ["Capture timeout"].
Proof.
  intros s r.
  assert (r = (false, CameraCapture.blank_frame, r.2)) as Hget
      by (vm_compute; reflexivity).
  split; [exact Hget|].
  destruct (get_frame_failure_changes_nothing _ _ _ _ _ _ Hget)
    as (_ & Hsame & _).
  split; [exact Hsame|]. vm_compute. reflexivity.
Defined.

Lemma frame_release_requeues_its_buffer_witness :
  let s := CameraCapture.video0_ready in
  let buf := CameraCapture.mk_v4l2_buffer 1 614400 (100, 0) 0 in
  let r := CameraCapture.get_frame CameraCapture.SelectReady
             (CameraCapture.DqbufDone buf) CameraCapture.blank_frame s in
  let s2 := CameraCapture.call_return_buffer r.1.2 true r.2 in
  Z.of_nat (length (CameraCapture.buffers_ s)) ≤ 2 ^ 31 ∧
  r = (true, r.1.2, r.2) ∧
  CameraCapture.buf_index r.1.2 = 1 ∧
  CameraCapture.qbuf_requests (CameraCapture.trace s2) = [0; 1; 2; 3; 1].
Proof.
  intros s buf r s2.
  assert (Z.of_nat (length (CameraCapture.buffers_ s)) ≤ 2 ^ 31) as Hpool
      by (vm_compute; discriminate).
  assert (r = (true, r.1.2, r.2)) as Hget by (vm_compute; reflexivity).
  split; [exact Hpool|]. split; [exact Hget|].
  destruct (frame_release_requeues_its_buffer buf CameraCapture.blank_frame
              r.1.2 s r.2 true Hpool Hget) as (Hidx & Hq & _).
  split; [exact Hidx|]. exact Hq.
Defined.

Lemma releasing_sink_requeues_each_frame_once_witness :
  let sink := CameraCapture.release_sink (λ _, true) in
  let answers :=
    [ (CameraCapture.SelectReady,
       CameraCapture.DqbufDone (CameraCapture.mk_v4l2_buffer 2 614400 (100, 0) 0));
      (CameraCapture.SelectTimeout, CameraCapture.DqbufError CameraCapture.EAGAIN);
      (CameraCapture.SelectReady,
       CameraCapture.DqbufDone (CameraCapture.mk_v4l2_buffer 0 614400 (100, 33333) 1)) ] in
  let s := CameraCapture.set_running true CameraCapture.video0_ready in
  Z.of_nat (length (CameraCapture.buffers_ s)) ≤ 2 ^ 31 ∧
  CameraCapture.qbuf_requests
    (CameraCapture.trace (CameraCapture.capture_thread (Some sink) answers s))
    = [0; 1; 2; 3; 2; 0].
Proof.
  intros sink answers s.
  assert (Z.of_nat (length (CameraCapture.buffers_ s)) ≤ 2 ^ 31) as Hpool
      by (vm_compute; discriminate).
  split; [exact Hpool|].
  exact (releasing_sink_requeues_each_frame_once (λ _, true) answers s Hpool).
Defined.

Lemma capture_loop_retries_after_errors_witness :
  let sink : CameraCapture.FrameCallback := λ _ s, s in
  let answers :=
    [ (CameraCapture.SelectTimeout, CameraCapture.DqbufError 0);
      (CameraCapture.SelectError CameraCapture.EINTR, CameraCapture.DqbufError 0);
      (CameraCapture.SelectReady,
       CameraCapture.DqbufDone (CameraCapture.mk_v4l2_buffer 9 0 (0, 0) 0));
      (CameraCapture.SelectReady,
       CameraCapture.DqbufDone (CameraCapture.mk_v4l2_buffer 1 614400 (100, 0) 0)) ] in
  let s := CameraCapture.set_running true CameraCapture.video0_ready in
  let s' := CameraCapture.capture_thread (Some sink) answers s in
  CameraCapture.running_ s = true ∧ CameraCapture.running_ s' = true ∧
  CameraCapture.select_requests (CameraCapture.trace s') =
    repeat CameraCapture.SysSelect 4 ∧
  ∃ retries,
    CameraCapture.sleep_requests (CameraCapture.trace s') = repeat 5 retries ∧
    (retries + 1)%nat = 4%nat.
Proof.
  intros sink answers s s'.
  split; [reflexivity|].
  destruct (capture_loop_retries_after_errors (Some sink) answers s)
    as (Hrun & Hsel & retries & Hsleep & Hcount).
  - intros cb frame s0 [= <-]. done.
  - reflexivity.
  - split; [exact Hrun|]. split; [exact Hsel|].
    exists retries. split; [exact Hsleep|]. exact Hcount.
Defined.

(** Two frames captured from buffers 2 and 0, pushed into a freshly
    constructed encoder and encoded in two passes, the second of which
    finds an image type it does not support. *)
Lemma pushed_frames_are_released_in_order_witness :
  let cam := CameraCapture.video0_ready in
  let capture i :=
    (CameraCapture.get_frame CameraCapture.SelectReady
       (CameraCapture.DqbufDone (CameraCapture.mk_v4l2_buffer i 614400 (0, 0) 0))
       CameraCapture.blank_frame cam).1.2 in
  let frames := [capture 2; capture 0] in
  let passes :=
    [ (EncoderStreamer.mkAnswers true EncoderStreamer.CV_8UC3 true true true true, []);
      (EncoderStreamer.mkAnswers true 5 true true true true, []) ] in
  let e := EncoderStreamer.EncoderStreamer in
  ThreadSafeQueue.max_size_ (EncoderStreamer.input_queue_ e) = 0%nat ∧
  length passes = length frames ∧
  ∃ e1 e2 cam',
    EncoderStreamer.push_frames frames e = Some e1 ∧
    EncoderStreamer.encoding_passes passes e1 cam = Some (e2, cam') ∧
    CameraCapture.qbuf_requests (CameraCapture.trace cam') =
      [0; 1; 2; 3; 2; 0] ∧
    ThreadSafeQueue.queue_ (EncoderStreamer.input_queue_ e2) = [] ∧
    CameraCapture.buffers_ cam' = CameraCapture.buffers_ cam.
Proof.
  intros cam capture frames passes e.
  split; [reflexivity|]. split; [reflexivity|].
  apply (pushed_frames_are_released_in_order frames passes e cam);
    try reflexivity.
  repeat constructor.
  - exists 2. split; [reflexivity|]. vm_compute. split; discriminate || reflexivity.
  - exists 0. split; [reflexivity|]. vm_compute. split; discriminate || reflexivity.
Defined.
